(** * zip2gif: a shallow embedding of [app.py]

    The program turns every ZIP archive of JPEG frames found under a folder
    into an animated GIF.  This development embeds

    - [find_ms_in_filename], the interval extractor (a regular-expression
      search followed by [int]);
    - [process_zip_file], the per-archive pipeline, as a computation in a
      state-and-exception monad over the external services it calls
      ([os.path], [tempfile], [zipfile], [PIL.Image]);
    - [process_folder], the batch coordinator: discovery, pool sizing and the
      loop that drains the completed futures into the tally;
    - [main], the entry point, after the arguments are parsed.

    A Python [str] is modelled by the [string] that holds its UTF-8
    encoding, as the literals of this file do; [Py.code_points] gives the
    characters that Python sees.  The order of [str] is the order of code
    points, which the byte order of well-formed encodings preserves.  Python
    [int] values are modelled by [Z]. *)

From Stdlib Require Import ZArith List String Ascii Bool Lia.
From Stdlib Require Import Sorted Permutation DecimalString.
Import ListNotations.

Open Scope string_scope.
Open Scope Z_scope.

(** ** Python built-ins used by the program *)

Module Py.

(** *** The characters of a [str]

    A character is its code point.  File names reach the program decoded
    from UTF-8 with the [surrogateescape] handler: a byte that is not part
    of a well-formed sequence becomes the lone surrogate [U+DC00 + byte]. *)

Inductive width := W1 | W2 | W3 | W4.

Definition is_cont (b : N) : bool := ((128 <=? b) && (b <? 192))%N.

Definition escaped_byte (b : N) : N := (56320 + b)%N.

(** The bounds that exclude overlong forms, surrogates and code points
    above [U+10FFFF]. *)
Definition three_ok (b0 c1 : N) : bool :=
  ((224 <=? b0) && (b0 <? 240)
   && (if b0 =? 224 then 160 <=? c1 else true)
   && (if b0 =? 237 then c1 <? 160 else true))%N.

Definition four_ok (b0 c1 : N) : bool :=
  ((240 <=? b0) && (b0 <? 245)
   && (if b0 =? 240 then 144 <=? c1 else true)
   && (if b0 =? 244 then c1 <? 144 else true))%N.

(** The character that starts with the byte [b0], given the three bytes
    that follow (where there are that many), and the number of bytes it
    takes. *)
Definition head_char (b0 : N) (b1 b2 b3 : option N) : N * width :=
  if (b0 <? 128)%N then (b0, W1)
  else
    match b1 with
    | Some c1 =>
        if is_cont c1 then
          if ((194 <=? b0) && (b0 <? 224))%N
          then (((b0 - 192) * 64 + (c1 - 128))%N, W2)
          else
            match b2 with
            | Some c2 =>
                if is_cont c2 then
                  if three_ok b0 c1
                  then (((b0 - 224) * 4096 + (c1 - 128) * 64
                         + (c2 - 128))%N, W3)
                  else
                    match b3 with
                    | Some c3 =>
                        if is_cont c3 && four_ok b0 c1
                        then (((b0 - 240) * 262144 + (c1 - 128) * 4096
                               + (c2 - 128) * 64 + (c3 - 128))%N, W4)
                        else (escaped_byte b0, W1)
                    | None => (escaped_byte b0, W1)
                    end
                else (escaped_byte b0, W1)
            | None => (escaped_byte b0, W1)
            end
        else (escaped_byte b0, W1)
    | None => (escaped_byte b0, W1)
    end.

Definition byte_at (s : string) (i : nat) : option N :=
  match String.get i s with
  | Some a => Some (N_of_ascii a)
  | None => None
  end.

(** What is left of [t], the text after the first byte of a character of
    width [w], once the character is read. *)
Definition skip (w : width) (t : string) : option string :=
  match w, t with
  | W1, _ => Some t
  | W2, String _ t1 => Some t1
  | W3, String _ (String _ t2) => Some t2
  | W4, String _ (String _ (String _ t3)) => Some t3
  | _, _ => None
  end.

(** The characters of the [str] encoded by [s]. *)
Fixpoint code_points (s : string) : list N :=
  match s with
  | EmptyString => []
  | String a t =>
      let (cp, w) :=
        head_char (N_of_ascii a) (byte_at t 0) (byte_at t 1) (byte_at t 2) in
      cp :: match w, t with
            | W1, _ => code_points t
            | W2, String _ t1 => code_points t1
            | W3, String _ (String _ t2) => code_points t2
            | W4, String _ (String _ (String _ t3)) => code_points t3
            | _, _ => []
            end
  end.

(** *** Decimal digits

    The characters with the Unicode property [Decimal_Number]: they come
    in runs of ten, from the digit zero to the digit nine of a script.
    [decimal_zeros] lists the digit zero of every run of Unicode 14.0, the
    table of CPython 3.11. *)
Definition decimal_zeros : list N :=
  [48; 1632; 1776; 1984; 2406; 2534; 2662; 2790; 2918; 3046; 3174; 3302;
   3430; 3558; 3664; 3792; 3872; 4160; 4240; 6112; 6160; 6470; 6608; 6784;
   6800; 6992; 7088; 7232; 7248; 42528; 43216; 43264; 43472; 43504; 43600;
   44016; 65296; 66720; 68912; 69734; 69872; 69942; 70096; 70384; 70736;
   70864; 71248; 71360; 71472; 71904; 72016; 72784; 73040; 73120; 92768;
   92864; 93008; 120782; 120792; 120802; 120812; 120822; 123200; 123632;
   125264; 130032]%N.

Fixpoint decimal_in (zeros : list N) (c : N) : option Z :=
  match zeros with
  | [] => None
  | z :: rest =>
      if ((z <=? c) && (c <? z + 10))%N then Some (Z.of_N (c - z))
      else decimal_in rest c
  end.

(** [unicodedata.decimal(c)], where it is defined. *)
Definition decimal (c : N) : option Z := decimal_in decimal_zeros c.

(** [c.isdecimal()]: the characters that [\d] matches in a [str]
    pattern and that [int] reads as digits. *)
Definition isdigit (c : N) : bool :=
  match decimal c with Some _ => true | None => false end.

Definition all_digits (s : list N) : bool := forallb isdigit s.

Definition digit_value (c : N) : Z :=
  match decimal c with Some v => v | None => 0 end.

Fixpoint int_from (acc : Z) (s : list N) : Z :=
  match s with
  | [] => acc
  | c :: t => int_from (10 * acc + digit_value c) t
  end.

(** [int(s)] for a non-empty string of decimal digits, the only argument
    the program passes.  (CPython refuses conversions of more than 4300
    digits; no file name is that long.) *)
Definition int (s : list N) : Z := int_from 0 s.

(** [str(n)] for an integer. *)
Definition str_of_int (n : Z) : string := NilZero.string_of_int (Z.to_int n).

Definition lower_char (c : ascii) : ascii :=
  let n := nat_of_ascii c in
  if (65 <=? n)%nat && (n <=? 90)%nat then ascii_of_nat (n + 32) else c.

(** [s.lower()] as far as the program depends on it: the letters [A-Z]
    are lowered.  The program only tests whether the lowered name ends
    with [.zip], [.jpg] or [.jpeg], and no other character is lowered to
    a character of these suffixes in the place of a single one. *)
Fixpoint lower (s : string) : string :=
  match s with
  | EmptyString => EmptyString
  | String c t => String (lower_char c) (lower t)
  end.

(** [s.endswith(suffix)]. *)
Definition endswith (s suffix : string) : bool :=
  let n := String.length s in
  let k := String.length suffix in
  (k <=? n)%nat && String.eqb (substring (n - k) k s) suffix.

(** [not xs] for a list. *)
Definition is_empty {A} (xs : list A) : bool :=
  match xs with [] => true | _ => false end.

(** [x or d] where [x] is [None] or an integer: [None] and [0] are falsy. *)
Definition or_int (x : option Z) (d : Z) : Z :=
  match x with
  | None => d
  | Some v => if v =? 0 then d else v
  end.

(** [min(a, b, c)]. *)
Definition min3 (a b c : Z) : Z := Z.min (Z.min a b) c.

End Py.

(** ** [re.search(r'@(\d+)ms', s)] *)

Module Re.

(** The literal [ms] at the head of [s]. *)
Definition lit_ms (s : list N) : bool :=
  match s with
  | a :: b :: _ => ((a =? 109) && (b =? 115))%N
  | _ => false
  end.

(** [\d+ms] anchored at the head of [s]: the greedy [\d+] first tries to
    take one more digit, and when the rest then fails it gives that digit
    back and tries the literal [ms] here.  The result is the text consumed
    by [\d+]. *)
Fixpoint digits_then_ms (s : list N) : option (list N) :=
  match s with
  | [] => None
  | c :: t =>
      if Py.isdigit c then
        match digits_then_ms t with
        | Some ds => Some (c :: ds)
        | None => if lit_ms t then Some [c] else None
        end
      else None
  end.

(** The whole pattern anchored at the head of [s]; returns group 1. *)
Definition match_here (s : list N) : option (list N) :=
  match s with
  | c :: t => if (c =? 64)%N then digits_then_ms t else None
  | [] => None
  end.

(** [search] scans the start positions from left to right and stops at the
    first one where the pattern matches. *)
Fixpoint search_from (pos : nat) (s : list N) : option (nat * list N) :=
  match match_here s with
  | Some g => Some (pos, g)
  | None =>
      match s with
      | [] => None
      | _ :: t => search_from (S pos) t
      end
  end.

(** The match object, reduced to [(m.start(), m.group(1))]. *)
Definition search (s : list N) : option (nat * list N) := search_from 0 s.

End Re.

(** ** The interval extractor *)

Definition find_ms_in_filename (filename : string) : Z :=
  match Re.search (Py.code_points filename) with
  | Some (_, group1) => Py.int group1
  | None => 40
  end.

(** [occurs_at s p ds]: the substring [@<ds>ms], with [ds] one or more
    decimal digits, starts at index [p] of the characters [s]. *)
Definition occurs_at (s : list N) (p : nat) (ds : list N) : Prop :=
  exists pre post,
    s = (pre ++ Py.code_points "@" ++ ds ++ Py.code_points "ms" ++ post)%list /\
    List.length pre = p /\ ds <> [] /\ Py.all_digits ds = true.

(** [leftmost s p ds]: that substring is the first of its form in [s]. *)
Definition leftmost (s : list N) (p : nat) (ds : list N) : Prop :=
  occurs_at s p ds /\ forall q ds', occurs_at s q ds' -> (p <= q)%nat.

(** Every digit of [ds] is the digit zero of its script. *)
Definition all_zeros (ds : list N) : bool :=
  forallb (fun c => match Py.decimal c with
                    | Some 0 => true
                    | _ => false
                    end) ds.

(** ** Exceptions, outcomes and the external services *)

(** An instance of Python's [Exception]: its class and the text [str(e)]. *)
Record Exception := mkException { exc_class : string; exc_str : string }.

(** The tuple [(zip_path, status, message)] returned by [process_zip_file]. *)
Definition outcome := (string * string * string)%type.

(** [result[1]] and [result[2]]. *)
Definition status_of (o : outcome) : string := snd (fst o).
Definition message_of (o : outcome) : string := snd o.

(** The keyword arguments of [images[0].save(gif_path, ...)]. *)
Record save_args (image : Type) := mkSave {
  sv_first : image;
  sv_fp : string;
  sv_save_all : bool;
  sv_append_images : list image;
  sv_duration : Z;
  sv_loop : Z;
  sv_disposal : Z
}.
Arguments mkSave {image}.
Arguments sv_first {image}.
Arguments sv_fp {image}.
Arguments sv_save_all {image}.
Arguments sv_append_images {image}.
Arguments sv_duration {image}.
Arguments sv_loop {image}.
Arguments sv_disposal {image}.

(** The calls the program makes to the file system and to the archive and
    image libraries. *)
Inductive call (image : Type) :=
| Mkdtemp (prefix dir : string)
| Extractall (zip_path temp_dir : string)
| Walk (top : string)
| ImageOpen (jpg_file : string)
| ImageSave (args : save_args image)
| ImageClose (img : image)
| Cleanup (temp_dir : string).
Arguments Mkdtemp {image}.
Arguments Extractall {image}.
Arguments Walk {image}.
Arguments ImageOpen {image}.
Arguments ImageSave {image}.
Arguments ImageClose {image}.
Arguments Cleanup {image}.

(** A call together with the exception it raised, if any. *)
Definition event (image : Type) := (call image * option Exception)%type.

(** The external services, over a state [W] of the outside world.  Every
    service that can fail may return an exception instead of a value.
    [os.walk] yields [(root, dirs, files)]; the program ignores [dirs]. *)
Record Env (W image : Type) := mkEnv {
  basename : string -> string;
  dirname : string -> string;
  splitext : string -> string * string;
  join : string -> string -> string;
  path_exists : string -> W -> bool;
  cpu_count : W -> option Z;
  mkdtemp : string -> string -> W -> (Exception + string) * W;
  extractall : string -> string -> W -> (Exception + unit) * W;
  walk : string -> W -> Exception + list (string * list string);
  image_open : string -> W -> Exception + image;
  image_save : save_args image -> W -> (Exception + unit) * W;
  image_close : image -> W -> Exception + unit;
  cleanup : string -> W -> (Exception + unit) * W
}.
Arguments basename {W image}.
Arguments dirname {W image}.
Arguments splitext {W image}.
Arguments join {W image}.
Arguments path_exists {W image}.
Arguments cpu_count {W image}.
Arguments mkdtemp {W image}.
Arguments extractall {W image}.
Arguments walk {W image}.
Arguments image_open {W image}.
Arguments image_save {W image}.
Arguments image_close {W image}.
Arguments cleanup {W image}.

(** The state threaded through the program: the outside world, the calls
    made so far and the lines printed so far. *)
Record state (W image : Type) := mkState {
  world : W;
  trace : list (event image);
  stdout : list string
}.
Arguments mkState {W image}.
Arguments world {W image}.
Arguments trace {W image}.
Arguments stdout {W image}.

(** ** A monad of state and exceptions *)

Section Monad.
Context {W image : Type}.

Definition M (A : Type) : Type :=
  state W image -> (Exception + A) * state W image.

Definition ret {A} (a : A) : M A := fun st => (inr a, st).

Definition raise {A} (e : Exception) : M A := fun st => (inl e, st).

Definition bind {A B} (m : M A) (k : A -> M B) : M B :=
  fun st =>
    match m st with
    | (inl e, st1) => (inl e, st1)
    | (inr a, st1) => k a st1
    end.

(** [try: body  except Exception as e: handler e]. *)
Definition try_except {A} (body : M A) (handler : Exception -> M A) : M A :=
  fun st =>
    match body st with
    | (inl e, st1) => handler e st1
    | (inr a, st1) => (inr a, st1)
    end.

(** Leaving a [with] block: [exit] runs however [body] ended; an exception
    of [exit] replaces the result of [body]. *)
Definition on_exit {A} (body : M A) (exit : M unit) : M A :=
  fun st =>
    let (r, st1) := body st in
    match exit st1 with
    | (inl e, st2) => (inl e, st2)
    | (inr _, st2) => (r, st2)
    end.

Definition raised {A} (r : Exception + A) : option Exception :=
  match r with inl e => Some e | inr _ => None end.

(** A call that may change the world. *)
Definition invoke {A} (c : call image) (op : W -> (Exception + A) * W) : M A :=
  fun st =>
    let (r, w) := op (world st) in
    (r, mkState w (trace st ++ [(c, raised r)]) (stdout st)).

(** A call that only reads the world. *)
Definition query {A} (c : call image) (op : W -> Exception + A) : M A :=
  invoke c (fun w => (op w, w)).

(** A read that cannot fail and is not recorded. *)
Definition read {A} (f : W -> A) : M A := fun st => (inr (f (world st)), st).

Definition print (line : string) : M unit :=
  fun st => (inr tt, mkState (world st) (trace st) (stdout st ++ [line])).

End Monad.

Notation "x <- m ;; k" := (bind m (fun x => k))
  (at level 61, m at next level, right associativity).
Notation "m ;;; k" := (bind m (fun _ => k))
  (at level 61, right associativity).

(** ** Lists of paths *)

(** [paths.sort()]: ascending in the order of [str], which compares code
    points lexicographically.  The order is total and antisymmetric, so the
    sorted list does not depend on the algorithm. *)
Fixpoint insert_sorted (x : string) (l : list string) : list string :=
  match l with
  | [] => [x]
  | y :: t => if String.leb x y then x :: l else y :: insert_sorted x t
  end.

Fixpoint list_sort (l : list string) : list string :=
  match l with
  | [] => []
  | x :: t => insert_sorted x (list_sort t)
  end.

(** [file.lower().endswith((s1, s2, ...))]. *)
Definition has_suffix (suffixes : list string) (file : string) : bool :=
  existsb (Py.endswith (Py.lower file)) suffixes.

(** ** The program *)

Section Program.
Context {W image : Type} (E : Env W image).

Local Abbreviation M := (@M W image).

(** The two nested loops over [os.walk]: every file of every directory
    whose lowered name ends with one of [suffixes], joined to its root. *)
Definition collect (suffixes : list string)
    (walked : list (string * list string)) : list string :=
  flat_map
    (fun entry => map (join E (fst entry))
                      (filter (has_suffix suffixes) (snd entry)))
    walked.

Definition gif_path_of (zip_path : string) : string :=
  let gif_filename := fst (splitext E (basename E zip_path)) ++ ".gif" in
  join E (dirname E zip_path) gif_filename.

(** [with tempfile.TemporaryDirectory(prefix=..., dir=...) as temp_dir]. *)
Definition with_TemporaryDirectory {A} (prefix dir : string)
    (body : string -> M A) : M A :=
  temp_dir <- invoke (Mkdtemp prefix dir) (mkdtemp E prefix dir) ;;
  on_exit (body temp_dir)
          (invoke (Cleanup temp_dir) (cleanup E temp_dir)).

(** The loop that opens the images.  An image that cannot be opened ends
    the loop with the file and the exception; otherwise a copy of the image
    is appended to [images]. *)
Fixpoint open_images (jpg_files : list string) (images : list image)
    : M (string * Exception + list image) :=
  match jpg_files with
  | [] => ret (inr images)
  | jpg_file :: rest =>
      opened <- try_except
                  (img <- query (ImageOpen jpg_file) (image_open E jpg_file) ;;
                   ret (inr img))
                  (fun e => ret (inl e)) ;;
      match opened with
      | inl e => ret (inl (jpg_file, e))
      | inr img => open_images rest (images ++ [img])
      end
  end.

(** [for img in images: img.close()]. *)
Fixpoint close_images (images : list image) : M unit :=
  match images with
  | [] => ret tt
  | img :: rest =>
      query (ImageClose img) (image_close E img) ;;;
      close_images rest
  end.

(** The body of the outer [try] of [process_zip_file]. *)
Definition process_zip_body (zip_path : string) : M outcome :=
  let gif_path := gif_path_of zip_path in
  gif_exists <- read (path_exists E gif_path) ;;
  if (gif_exists : bool) then ret (zip_path, "skip", "对应的GIF已存在")
  else
    let ms_duration := find_ms_in_filename (basename E zip_path) in
    with_TemporaryDirectory "gif_frames_" (dirname E zip_path)
      (fun temp_dir =>
         invoke (Extractall zip_path temp_dir)
                (extractall E zip_path temp_dir) ;;;
         walked <- query (Walk temp_dir) (walk E temp_dir) ;;
         let jpg_files := collect [".jpg"; ".jpeg"] walked in
         if Py.is_empty jpg_files
         then ret (zip_path, "warning", "没有找到JPG文件")
         else
           let jpg_files := list_sort jpg_files in
           opened <- open_images jpg_files [] ;;
           match opened with
           | inl (jpg_file, e) =>
               ret (zip_path, "error",
                    "无法处理图像 " ++ jpg_file ++ ": " ++ exc_str e)
           | inr images =>
               match images with
               | [] => ret (zip_path, "warning", "没有可用的图像")
               | first :: others =>
                   invoke
                     (ImageSave (mkSave first gif_path true others
                                        ms_duration 0 2))
                     (image_save E (mkSave first gif_path true others
                                           ms_duration 0 2)) ;;;
                   close_images images ;;;
                   ret (zip_path, "success", gif_path)
               end
           end).

Definition process_zip_file (zip_path : string) : M outcome :=
  try_except (process_zip_body zip_path)
             (fun e => ret (zip_path, "error", exc_str e)).

(** *** The batch coordinator *)

Record tally := mkTally { processed : Z; skipped : Z; errors : Z }.

(** One round of the loop over [as_completed(futures)]: the archive of the
    future, what [future.result()] gave, the counters before; the counters
    after and the lines printed. *)
Definition tally_step (t : tally)
    (completed : string * (Exception + outcome)) : tally * list string :=
  let (zip_path, result) := completed in
  match result with
  | inr result =>
      let status := status_of result in
      let message := message_of result in
      if String.eqb status "success" then
        (mkTally (processed t + 1) (skipped t) (errors t),
         ["✓ 已生成: " ++ message])
      else if String.eqb status "skip" then
        (mkTally (processed t) (skipped t + 1) (errors t), [])
      else if String.eqb status "warning" then
        (t, ["⚠️ 警告: " ++ zip_path ++ " - " ++ message])
      else if String.eqb status "error" then
        (mkTally (processed t) (skipped t) (errors t + 1),
         ["✗ 处理 " ++ zip_path ++ " 时出错: " ++ message])
      else (t, [])
  | inl e =>
      (mkTally (processed t) (skipped t) (errors t + 1),
       ["✗ 处理 " ++ zip_path ++ " 时发生未知错误: " ++ exc_str e])
  end.

Fixpoint drain (t : tally) (completed : list (string * (Exception + outcome)))
    : tally * list string :=
  match completed with
  | [] => (t, [])
  | c :: rest =>
      let (t1, lines1) := tally_step t c in
      let (t2, lines2) := drain t1 rest in
      (t2, (lines1 ++ lines2)%list)
  end.

(** The four [print] calls after the pool has shut down.  The first line
    starts with the newline of the source's format string. *)
Definition summary (num_files : Z) (t : tally) : list string :=
  [String "010" ("处理完成: 共处理 " ++ Py.str_of_int num_files ++ " 个文件");
   "✓ 成功: " ++ Py.str_of_int (processed t);
   "↺ 跳过: " ++ Py.str_of_int (skipped t);
   "✗ 失败: " ++ Py.str_of_int (errors t)].

(** The size of the pool: the override if there is one, else
    [min(os.cpu_count() or 4, 10, num_files)]. *)
Definition pool_size (max_workers : option Z) (cpu : option Z)
    (num_files : Z) : Z :=
  match max_workers with
  | Some n => n
  | None => Py.min3 (Py.or_int cpu 4) 10 num_files
  end.

Fixpoint print_lines (lines : list string) : M unit :=
  match lines with
  | [] => ret tt
  | l :: rest => print l ;;; print_lines rest
  end.

(** The workers of the pool under a serial schedule: the archives are
    processed one after the other, in the order [order] in which their
    futures complete.  [future.result()] gives the outcome or re-raises
    what escaped the worker. *)
Fixpoint run_pool (order : list string)
    : M (list (string * (Exception + outcome))) :=
  match order with
  | [] => ret []
  | zip_path :: rest =>
      r <- try_except (o <- process_zip_file zip_path ;; ret (inr o))
                      (fun e => ret (inl e)) ;;
      rs <- run_pool rest ;;
      ret ((zip_path, r) :: rs)
  end.

(** [process_folder(folder_path, max_workers)].  [schedule] stands for the
    order of completion chosen by the pool, a rearrangement of the
    submitted archives.  [ThreadPoolExecutor] refuses a size below 1. *)
Definition process_folder (schedule : list string -> list string)
    (folder_path : string) (max_workers : option Z) : M unit :=
  walked <- query (Walk folder_path) (walk E folder_path) ;;
  let zip_files := collect [".zip"] walked in
  if Py.is_empty zip_files
  then print ("在 " ++ folder_path ++ " 中没有找到任何ZIP文件")
  else
    let num_files := Z.of_nat (List.length zip_files) in
    cpu <- read (cpu_count E) ;;
    let max_workers := pool_size max_workers cpu num_files in
    if max_workers <=? 0
    then raise (mkException "ValueError"
                            "max_workers must be greater than 0")
    else
      completed <- run_pool (schedule zip_files) ;;
      let (t, lines) := drain (mkTally 0 0 0) completed in
      print_lines lines ;;;
      print_lines (summary num_files t).

End Program.

(** ** [os.path] on POSIX *)

Module Posix.

Definition sep : ascii := "/"%char.

(** [(p[:i], p[i:])] with [i = p.rfind('/') + 1]. *)
Fixpoint split_last_sep (p : string) : string * string :=
  match p with
  | EmptyString => (EmptyString, EmptyString)
  | String c t =>
      let (head, tail) := split_last_sep t in
      match head with
      | EmptyString =>
          if Ascii.eqb c sep then (String c EmptyString, t)
          else (EmptyString, String c t)
      | _ => (String c head, tail)
      end
  end.

(** [s.rstrip('/')]. *)
Fixpoint rstrip_sep (s : string) : string :=
  match s with
  | EmptyString => EmptyString
  | String c t =>
      match rstrip_sep t with
      | EmptyString => if Ascii.eqb c sep then EmptyString
                       else String c EmptyString
      | t' => String c t'
      end
  end.

Definition basename (p : string) : string := snd (split_last_sep p).

(** The head is stripped of trailing slashes unless it consists of
    slashes only. *)
Definition dirname (p : string) : string :=
  let head := fst (split_last_sep p) in
  match rstrip_sep head with
  | EmptyString => head
  | stripped => stripped
  end.

(** [(p[:i], p[i:])] where [i] is the index of the last dot of the last
    component, provided a character other than a dot precedes it there;
    [(p, '')] otherwise.  [seen] tells whether such a character has been
    met in the current component. *)
Fixpoint splitext_from (seen : bool) (p : string) : option (string * string) :=
  match p with
  | EmptyString => None
  | String c t =>
      let seen' := if Ascii.eqb c sep then false
                   else if Ascii.eqb c "." then seen else true in
      match splitext_from seen' t with
      | Some (root, ext) => Some (String c root, ext)
      | None =>
          if Ascii.eqb c "." && seen
             && negb (existsb (Ascii.eqb sep) (list_ascii_of_string t))
          then Some (EmptyString, p)
          else None
      end
  end.

Definition splitext (p : string) : string * string :=
  match splitext_from false p with
  | Some r => r
  | None => (p, EmptyString)
  end.

(** [os.path.join(a, b)]. *)
Definition join (a b : string) : string :=
  if prefix "/" b then b
  else if Py.is_empty (list_ascii_of_string a) || Py.endswith a "/"
       then a ++ b
       else a ++ "/" ++ b.

End Posix.

(** ** A small file system on which the program can be run

    The world is the list of the paths of the files that exist.  [archives]
    gives the members of each readable archive and [corrupt] the paths
    inside archives whose content is not an image.  A decoded image is
    named by the file it was read from. *)

Module Sim.

Definition world := list string.

Definition mem (p : string) (w : world) : bool := existsb (String.eqb p) w.

Fixpoint lookup (k : string) (table : list (string * list string))
    : option (list string) :=
  match table with
  | [] => None
  | (k', v) :: rest => if String.eqb k k' then Some v else lookup k rest
  end.

Definition env (archives : list (string * list string))
    (corrupt : list string) (cpus : option Z) : Env world string :=
  {| basename := Posix.basename;
     dirname := Posix.dirname;
     splitext := Posix.splitext;
     join := Posix.join;
     path_exists := mem;
     cpu_count := fun _ => cpus;
     mkdtemp := fun prefix dir w => (inr (Posix.join dir (prefix ++ "0")), w);
     extractall := fun zip_path temp_dir w =>
       match lookup zip_path archives with
       | Some members =>
           if mem zip_path w
           then (inr tt, (w ++ map (Posix.join temp_dir) members)%list)
           else (inl (mkException "FileNotFoundError" zip_path), w)
       | None => (inl (mkException "BadZipFile" "File is not a zip file"), w)
       end;
     walk := fun top w =>
       inr [(top, map Posix.basename
                      (filter (fun f => String.eqb (Posix.dirname f) top) w))];
     image_open := fun jpg_file w =>
       if mem jpg_file w && negb (existsb (Py.endswith jpg_file) corrupt)
       then inr jpg_file
       else inl (mkException "UnidentifiedImageError"
                             "cannot identify image file");
     image_save := fun args w => (inr tt, (w ++ [sv_fp args])%list);
     image_close := fun _ _ => inr tt;
     cleanup := fun temp_dir w =>
       (inr tt, filter (fun f => negb (prefix (temp_dir ++ "/") f)) w) |}.

Definition start (w : world) : state world string := mkState w [] [].

(** A folder [d] with one archive of three frames and a text file. *)
Definition clip_zip : string := "d/clip@100ms.zip".
Definition clip_members : list string :=
  ["b.jpg"; "a.jpg"; "notes.txt"; "c.JPG"].
Definition clip_env : Env world string :=
  env [(clip_zip, clip_members)] [] (Some 8).

(** The same archive when [b.jpg] is not an image. *)
Definition damaged_env : Env world string :=
  env [(clip_zip, clip_members)] ["b.jpg"] (Some 8).

(** An archive without any image. *)
Definition notes_env : Env world string :=
  env [(clip_zip, ["notes.txt"])] [] (Some 8).

(** An archive whose only image file is not an image. *)
Definition broken_env : Env world string :=
  env [(clip_zip, ["a.jpg"])] ["a.jpg"] (Some 8).

Definition scratch : string := "d/gif_frames_0".

(** The world once [clip_zip] has been extracted into [scratch]. *)
Definition clip_extracted : world :=
  [clip_zip; "d/gif_frames_0/b.jpg"; "d/gif_frames_0/a.jpg";
   "d/gif_frames_0/notes.txt"; "d/gif_frames_0/c.JPG"].

Definition clip_jpg_files : list string :=
  ["d/gif_frames_0/b.jpg"; "d/gif_frames_0/a.jpg"; "d/gif_frames_0/c.JPG"].

End Sim.


(** ** Vocabulary for the statements *)

Section Runs.
Context {W image : Type} (E : Env W image).

(** What the loop over the image files yields in world [w]: the first file
    that cannot be opened with its exception, or the images of all files. *)
Fixpoint opened (w : W) (jpg_files : list string)
    : string * Exception + list image :=
  match jpg_files with
  | [] => inr []
  | f :: rest =>
      match image_open E f w with
      | inl e => inl (f, e)
      | inr img =>
          match opened w rest with
          | inl failure => inl failure
          | inr images => inr (img :: images)
          end
      end
  end.

(** The calls made by that loop. *)
Fixpoint open_events (w : W) (jpg_files : list string) : list (event image) :=
  match jpg_files with
  | [] => []
  | f :: rest =>
      match image_open E f w with
      | inl e => [(ImageOpen f, Some e)]
      | inr _ => (ImageOpen f, None) :: open_events w rest
      end
  end.

(** The first exception raised when the images are closed in turn. *)
Fixpoint closed (w : W) (images : list image) : Exception + unit :=
  match images with
  | [] => inr tt
  | img :: rest =>
      match image_close E img w with
      | inl e => inl e
      | inr _ => closed w rest
      end
  end.

Fixpoint close_events (w : W) (images : list image) : list (event image) :=
  match images with
  | [] => []
  | img :: rest =>
      match image_close E img w with
      | inl e => [(ImageClose img, Some e)]
      | inr _ => (ImageClose img, None) :: close_events w rest
      end
  end.

(** [extracted zip_path w temp_dir w2 jpg_files]: started in world [w],
    [process_zip_file] finds no output for [zip_path], obtains the scratch
    directory [temp_dir], extracts the archive into it, which leaves the
    world [w2], and finds there the image files [jpg_files], in the order
    of the walk. *)
Definition extracted (zip_path : string) (w : W) (temp_dir : string) (w2 : W)
    (jpg_files : list string) : Prop :=
  path_exists E (gif_path_of E zip_path) w = false /\
  exists w1 walked,
    mkdtemp E "gif_frames_" (dirname E zip_path) w = (inr temp_dir, w1) /\
    extractall E zip_path temp_dir w1 = (inr tt, w2) /\
    walk E temp_dir w2 = inr walked /\
    jpg_files = collect E [".jpg"; ".jpeg"] walked.

(** The calls up to the point where the image files are known. *)
Definition extraction_events (zip_path temp_dir : string) : list (event image) :=
  [(Mkdtemp "gif_frames_" (dirname E zip_path), None);
   (Extractall zip_path temp_dir, None);
   (Walk temp_dir, None)].

(** The encode call of [process_zip_file] for the frames [images]. *)
Definition encode_call (zip_path : string) (first : image)
    (others : list image) : call image :=
  ImageSave (mkSave first (gif_path_of E zip_path) true others
                    (find_ms_in_filename (basename E zip_path)) 0 2).

End Runs.

Definition is_save {image} (ev : event image) : bool :=
  match fst ev with ImageSave _ => true | _ => false end.

Definition is_open {image} (ev : event image) : bool :=
  match fst ev with ImageOpen _ => true | _ => false end.

Definition is_extract {image} (ev : event image) : bool :=
  match fst ev with Extractall _ _ => true | _ => false end.

(** The call returned normally. *)
Definition returned {image} (ev : event image) : Prop := snd ev = None.

(** A completed future whose result has status [s]. *)
Definition has_status (s : string) (c : string * (Exception + outcome)) : bool :=
  match snd c with
  | inr o => String.eqb (status_of o) s
  | inl _ => false
  end.

(** A completed future whose [result()] raises. *)
Definition escaped (c : string * (Exception + outcome)) : bool :=
  match snd c with inl _ => true | inr _ => false end.

(** The lines printed for one completed future. *)
Definition report (c : string * (Exception + outcome)) : list string :=
  snd (tally_step (mkTally 0 0 0) c).

Definition count {A} (f : A -> bool) (l : list A) : Z :=
  Z.of_nat (List.length (filter f l)).

Definition str_le (a b : string) : Prop := String.leb a b = true.


From Stdlib Require Import DecimalPos.

(** ** The entry point *)

(** [main()], from the point where [argparse] has produced [args.folder] and
    [args.workers].  [isdir] stands for [os.path.isdir]. *)
Definition main {W image : Type} (E : Env W image)
    (isdir : string -> W -> bool) (schedule : list string -> list string)
    (folder : string) (workers : option Z) : M unit :=
  is_dir <- read (isdir folder) ;;
  if negb is_dir
  then print ("错误: 文件夹 " ++ folder ++ " 不存在")
  else process_folder E schedule folder workers.

(** A directory of the small file system: some file lies below it. *)
Definition sim_isdir (p : string) (w : Sim.world) : bool :=
  existsb (fun f => prefix (p ++ "/") f) w.

Definition is_cleanup {image} (ev : event image) : bool :=
  match fst ev with Cleanup _ => true | _ => false end.

Definition is_mkdtemp {image} (ev : event image) : bool :=
  match fst ev with Mkdtemp _ _ => true | _ => false end.

Definition is_close {image} (ev : event image) : bool :=
  match fst ev with ImageClose _ => true | _ => false end.

Definition is_walk {image} (ev : event image) : bool :=
  match fst ev with Walk _ => true | _ => false end.

(** The calls of a loop in which every call returned. *)
Definition opens {image} (jpg_files : list string) : list (event image) :=
  map (fun f => (ImageOpen f, None)) jpg_files.

Definition closes {image} (images : list image) : list (event image) :=
  map (fun img => (ImageClose img, None)) images.

(** Upper-case letters of a string put in lower case or the reverse, letter
    by letter: [same_modulo_case a b] when [a.lower() == b.lower()]. *)
Definition same_modulo_case (a b : string) : Prop := Py.lower a = Py.lower b.

(** [ends_removing temp_dir l]: the calls [l] end with the removal of
    [temp_dir], and no other call of [l] makes or removes a scratch
    directory. *)
Definition ends_removing {image} (temp_dir : string) (l : list (event image))
    : Prop :=
  exists inside r,
    l = (inside ++ [(Cleanup temp_dir, r)])%list /\
    forallb (fun ev => negb (is_cleanup ev) && negb (is_mkdtemp ev))
            inside = true.

(** The clip archive in a world where the encoder rejects the frames. *)
Definition sim_rejecting_env : Env Sim.world string :=
  let E := Sim.clip_env in
  mkEnv Sim.world string
        (basename E) (dirname E) (splitext E) (join E) (path_exists E)
        (cpu_count E) (mkdtemp E) (extractall E) (walk E) (image_open E)
        (fun _ w => (inl (mkException "ValueError" "images do not match"), w))
        (image_close E) (cleanup E).

(** The clip archive in a world where the scratch directory cannot be
    removed. *)
Definition sim_sticky_env : Env Sim.world string :=
  let E := Sim.clip_env in
  mkEnv Sim.world string
        (basename E) (dirname E) (splitext E) (join E) (path_exists E)
        (cpu_count E) (mkdtemp E) (extractall E) (walk E) (image_open E)
        (image_save E) (image_close E)
        (fun temp_dir w =>
           (inl (mkException "PermissionError" temp_dir), w)).

(** A result whose status is one of the four the coordinator knows. *)
Definition known (c : string * (Exception + outcome)) : Prop :=
  exists status message,
    snd c = inr (fst c, status, message) /\
    In status ["success"; "skip"; "warning"; "error"].

(** [c in s] for a character [c]. *)
Fixpoint has_char (c : ascii) (s : string) : bool :=
  match s with
  | EmptyString => false
  | String a t => Ascii.eqb a c || has_char c t
  end.

(** The number written by the decimal digits [d], read after [acc]. *)
Fixpoint uint_value (acc : Z) (d : Decimal.uint) : Z :=
  match d with
  | Decimal.Nil => acc
  | Decimal.D0 l => uint_value (10 * acc + 0) l
  | Decimal.D1 l => uint_value (10 * acc + 1) l
  | Decimal.D2 l => uint_value (10 * acc + 2) l
  | Decimal.D3 l => uint_value (10 * acc + 3) l
  | Decimal.D4 l => uint_value (10 * acc + 4) l
  | Decimal.D5 l => uint_value (10 * acc + 5) l
  | Decimal.D6 l => uint_value (10 * acc + 6) l
  | Decimal.D7 l => uint_value (10 * acc + 7) l
  | Decimal.D8 l => uint_value (10 * acc + 8) l
  | Decimal.D9 l => uint_value (10 * acc + 9) l
  end.


(** * Properties *)

(** ** The regular expression *)

Section RegexFacts.

Lemma lit_ms_iff t :
Re.lit_ms t = true <-> exists post, t = (Py.code_points "ms" ++ post)%list.
Proof.
split.
- destruct t as [|a [|b t]]; simpl; try discriminate.
  intros H. apply andb_true_iff in H as [Ha Hb].
  apply N.eqb_eq in Ha, Hb. subst. now exists t.
- intros [post ->]. reflexivity.
Qed.

Lemma digits_then_ms_sound s ds :
Re.digits_then_ms s = Some ds ->
exists post,
  s = (ds ++ Py.code_points "ms" ++ post)%list /\
  ds <> [] /\ Py.all_digits ds = true.
Proof.
revert ds. induction s as [|c t IH]; cbn [Re.digits_then_ms];
  intros ds H; [discriminate|].
destruct (Py.isdigit c) eqn:Hc; [|discriminate].
destruct (Re.digits_then_ms t) as [ds'|] eqn:Ht.
- injection H as <-. destruct (IH _ eq_refl) as (post & -> & _ & Hd).
  exists post. cbn [Py.all_digits forallb]. fold (Py.all_digits ds').
  rewrite Hc, Hd. repeat split; congruence.
- destruct (Re.lit_ms t) eqn:Hp; [|discriminate]. injection H as <-.
  apply lit_ms_iff in Hp as [post ->]. exists post.
  cbn [Py.all_digits forallb]. rewrite Hc. repeat split; congruence.
Qed.

Lemma digits_then_ms_complete ds post :
ds <> [] -> Py.all_digits ds = true ->
Re.digits_then_ms (ds ++ Py.code_points "ms" ++ post) = Some ds.
Proof.
induction ds as [|c ds IH]; [congruence|]. intros _ Hd.
cbn [Py.all_digits forallb] in Hd. fold (Py.all_digits ds) in Hd.
apply andb_true_iff in Hd as [Hc Hd].
rewrite <- app_comm_cons. cbn [Re.digits_then_ms]. rewrite Hc.
destruct ds as [|c' ds'].
- reflexivity.
- rewrite IH; [reflexivity|discriminate|exact Hd].
Qed.

Lemma match_here_iff s ds :
Re.match_here s = Some ds <->
exists post,
  s = (Py.code_points "@" ++ ds ++ Py.code_points "ms" ++ post)%list /\
  ds <> [] /\ Py.all_digits ds = true.
Proof.
split.
- destruct s as [|c t]; cbn [Re.match_here]; [discriminate|].
  destruct (N.eqb_spec c 64) as [->|]; [|discriminate]. intros H.
  apply digits_then_ms_sound in H as (post & -> & Hn & Hd). now exists post.
- intros (post & -> & Hn & Hd).
  change (Py.code_points "@") with [64%N]. cbn [app Re.match_here N.eqb Pos.eqb].
  now apply digits_then_ms_complete.
Qed.

Lemma occurs_at_0 s ds : occurs_at s 0 ds <-> Re.match_here s = Some ds.
Proof.
rewrite match_here_iff. split.
- intros (pre & post & -> & Hl & Hn & Hd). destruct pre; [|discriminate].
  now exists post.
- intros (post & -> & Hn & Hd). now exists [], post.
Qed.

Lemma occurs_at_S c t p ds : occurs_at (c :: t) (S p) ds <-> occurs_at t p ds.
Proof.
split.
- intros (pre & post & He & Hl & Hn & Hd).
  destruct pre as [|c' pre]; [discriminate|].
  simpl in He, Hl. injection He as -> ->. injection Hl as Hl.
  now exists pre, post.
- intros (pre & post & -> & Hl & Hn & Hd). exists (c :: pre), post.
  simpl. auto.
Qed.

Lemma occurs_at_empty p ds : ~ occurs_at [] p ds.
Proof.
intros (pre & post & He & _). destruct pre; discriminate.
Qed.

Lemma search_from_sound s : forall k p ds,
Re.search_from k s = Some (p, ds) ->
exists q, p = (k + q)%nat /\ occurs_at s q ds /\
          forall q' ds', occurs_at s q' ds' -> (q <= q')%nat.
Proof.
induction s as [|c t IH]; intros k p ds H.
- simpl in H. discriminate.
- cbn [Re.search_from] in H.
  destruct (Re.match_here (c :: t)) as [g|] eqn:Hm.
  + injection H as <- <-. exists 0%nat. rewrite occurs_at_0.
    repeat split; auto with arith.
  + apply IH in H as (q & -> & Ho & Hmin). exists (S q).
    rewrite occurs_at_S. repeat split; [lia|exact Ho|].
    intros [|q'] ds' Ho'.
    * apply occurs_at_0 in Ho'. congruence.
    * apply occurs_at_S, Hmin in Ho'. lia.
Qed.

Lemma search_from_none s : forall k,
Re.search_from k s = None -> forall q ds, ~ occurs_at s q ds.
Proof.
induction s as [|c t IH]; intros k H q ds Ho.
- now apply occurs_at_empty in Ho.
- cbn [Re.search_from] in H.
  destruct (Re.match_here (c :: t)) as [g|] eqn:Hm; [discriminate|].
  destruct q as [|q].
  + apply occurs_at_0 in Ho. congruence.
  + apply occurs_at_S in Ho. exact (IH _ H _ _ Ho).
Qed.

Lemma occurs_at_functional s p ds ds' :
occurs_at s p ds -> occurs_at s p ds' -> ds = ds'.
Proof.
revert s. induction p as [|p IH]; intros s H H'.
- apply occurs_at_0 in H, H'. congruence.
- destruct s as [|c t]; [now apply occurs_at_empty in H|].
  apply occurs_at_S in H, H'. eauto.
Qed.

Lemma search_leftmost s p ds :
occurs_at s p ds ->
(forall q ds', occurs_at s q ds' -> (p <= q)%nat) ->
Re.search s = Some (p, ds).
Proof.
intros Ho Hmin. unfold Re.search.
destruct (Re.search_from 0 s) as [[p0 g]|] eqn:Hs.
- apply search_from_sound in Hs as (q & -> & Hq & Hqmin). simpl.
  assert (q = p) as -> by (apply Nat.le_antisymm; eauto).
  f_equal. f_equal. eapply occurs_at_functional; eauto.
- exfalso. eapply search_from_none; eauto.
Qed.

End RegexFacts.

(** ** [int] on strings of digits *)

Section IntFacts.

Lemma decimal_in_range zeros c v :
Py.decimal_in zeros c = Some v -> 0 <= v <= 9.
Proof.
induction zeros as [|z rest IH]; cbn [Py.decimal_in]; [discriminate|].
destruct ((z <=? c)%N && (c <? z + 10)%N) eqn:Hz; [|exact IH].
apply andb_true_iff in Hz as [H1 H2].
apply N.leb_le in H1. apply N.ltb_lt in H2.
intros H. injection H as <-. lia.
Qed.

Lemma isdigit_value c : Py.isdigit c = true -> 0 <= Py.digit_value c <= 9.
Proof.
unfold Py.isdigit, Py.digit_value, Py.decimal.
destruct (Py.decimal_in Py.decimal_zeros c) as [v|] eqn:Hv; [|discriminate].
intros _. eapply decimal_in_range; eauto.
Qed.

Lemma int_from_ge acc ds :
Py.all_digits ds = true -> 0 <= acc -> acc <= Py.int_from acc ds.
Proof.
revert acc.
induction ds as [|c ds IH]; cbn [Py.int_from Py.all_digits forallb];
  intros acc Hd Ha; [lia|].
apply andb_true_iff in Hd as [Hc Hd]. apply isdigit_value in Hc.
specialize (IH (10 * acc + Py.digit_value c) Hd). lia.
Qed.

Lemma int_from_zero acc ds :
Py.all_digits ds = true -> 0 <= acc ->
(Py.int_from acc ds = 0 <-> acc = 0 /\ all_zeros ds = true).
Proof.
revert acc.
induction ds as [|c ds IH];
  cbn [Py.int_from Py.all_digits all_zeros forallb]; intros acc Hd Ha.
- intuition.
- apply andb_true_iff in Hd as [Hc Hd].
  pose proof (isdigit_value _ Hc) as Hv.
  fold (all_zeros ds). rewrite IH by (auto; lia). rewrite andb_true_iff.
  unfold Py.isdigit, Py.digit_value in *.
  destruct (Py.decimal c) as [v|]; [|discriminate].
  split.
  + intros [H0 Hz]. assert (acc = 0 /\ v = 0) as [-> ->] by lia. auto.
  + intros [-> [Hv0 Hz]]. destruct v; try discriminate. auto.
Qed.

End IntFacts.


(** ** The interval extractor *)

Lemma search_result s :
  (exists p ds, leftmost s p ds /\ Re.search s = Some (p, ds)) \/
  ((forall p ds, ~ occurs_at s p ds) /\ Re.search s = None).
Proof.
  unfold Re.search. destruct (Re.search_from 0 s) as [[p ds]|] eqn:Hs.
  - left. apply search_from_sound in Hs as (q & -> & Ho & Hmin).
    exists q, ds. repeat split; auto.
  - right. split; [|reflexivity]. eauto using search_from_none.
Qed.

Lemma leftmost_unique s p ds p' ds' :
  leftmost s p ds -> leftmost s p' ds' -> p = p' /\ ds = ds'.
Proof.
  intros [Ho Hmin] [Ho' Hmin'].
  assert (p = p') as <- by (apply Nat.le_antisymm; eauto).
  split; [reflexivity|]. eapply occurs_at_functional; eauto.
Qed.

Lemma occurs_at_digits s p ds : occurs_at s p ds -> Py.all_digits ds = true.
Proof. now intros (_ & _ & _ & _ & _ & H). Qed.

Example find_ms_100 : find_ms_in_filename "clip@100ms.zip" = 100.
Proof. reflexivity. Qed.

Example find_ms_default : find_ms_in_filename "clip.zip" = 40.
Proof. reflexivity. Qed.

Example find_ms_gives_back : find_ms_in_filename "a@12m@7ms" = 7.
Proof. reflexivity. Qed.

Example find_ms_leading_zeros : find_ms_in_filename "a@007ms.zip" = 7.
Proof. reflexivity. Qed.

(** Digits of other scripts are digits for [\d] and for [int]. *)
Example find_ms_fullwidth : find_ms_in_filename "clip@１２ms.zip" = 12.
Proof. reflexivity. Qed.

Example find_ms_mixed_scripts : find_ms_in_filename "a@１ms_b@2ms_c@3ms" = 1.
Proof. reflexivity. Qed.

Example find_ms_fullwidth_zero : find_ms_in_filename "x@０ms" = 0.
Proof. reflexivity. Qed.

(** C2, as stated, fails: ["a@1ms_b@2ms"] contains [@2ms], and 2 is a
    positive integer, yet the extractor returns 1. *)
Lemma find_ms_not_every_pattern :
  occurs_at (Py.code_points "a@1ms_b@2ms") 7 (Py.code_points "2") /\
  0 < Py.int (Py.code_points "2") /\
  find_ms_in_filename "a@1ms_b@2ms" <> Py.int (Py.code_points "2").
Proof.
  split; [|split].
  - exists (Py.code_points "a@1ms_b"), []. repeat split. discriminate.
  - reflexivity.
  - discriminate.
Qed.

(** C2, amended: when the characters of the file name contain substrings of
    the form [@<N>ms], with [N] one or more decimal digits, the extractor
    returns the integer of the leftmost one; when they contain none, it
    returns 40.  It is a total function: one of the two cases always
    applies. *)
Theorem find_ms_leftmost_or_default (filename : string) :
  (forall p ds, leftmost (Py.code_points filename) p ds ->
                find_ms_in_filename filename = Py.int ds) /\
  ((forall p ds, ~ occurs_at (Py.code_points filename) p ds) ->
   find_ms_in_filename filename = 40) /\
  ((exists p ds, leftmost (Py.code_points filename) p ds) \/
   (forall p ds, ~ occurs_at (Py.code_points filename) p ds)).
Proof.
  unfold find_ms_in_filename.
  destruct (search_result (Py.code_points filename))
    as [(p & ds & Hl & ->)|[Hn ->]].
  - split; [|split].
    + intros p' ds' Hl'. now destruct (leftmost_unique _ _ _ _ _ Hl Hl') as [_ ->].
    + intros Hn. destruct Hl as [Ho _]. now apply Hn in Ho.
    + left. eauto.
  - split; [|split]; auto.
    intros p ds [Ho _]. now apply Hn in Ho.
Qed.

(** C10: when the characters of the file name contain two or more distinct
    substrings of the form [@<digits>ms], one of them is the leftmost and
    the extractor returns the integer parsed from it. *)
Theorem find_ms_two_patterns (filename : string) (p1 p2 : nat)
    (ds1 ds2 : list N) :
  occurs_at (Py.code_points filename) p1 ds1 ->
  occurs_at (Py.code_points filename) p2 ds2 -> p1 <> p2 ->
  exists p ds,
    leftmost (Py.code_points filename) p ds /\
    (p <= p1)%nat /\ (p <= p2)%nat /\
    find_ms_in_filename filename = Py.int ds.
Proof.
  intros H1 H2 _. unfold find_ms_in_filename.
  destruct (search_result (Py.code_points filename))
    as [(p & ds & Hl & ->)|[Hn _]].
  - exists p, ds. destruct Hl as [Ho Hmin]. repeat split; eauto.
  - now apply Hn in H1.
Qed.

Lemma find_ms_two_patterns_witness :
  let name := "a@１ms_b@2ms_c@3ms" in
  occurs_at (Py.code_points name) 7 (Py.code_points "2") /\
  occurs_at (Py.code_points name) 13 (Py.code_points "3") /\
  exists p ds,
    leftmost (Py.code_points name) p ds /\ (p <= 7)%nat /\ (p <= 13)%nat /\
    find_ms_in_filename name = Py.int ds.
Proof.
  intros name.
  assert (occurs_at (Py.code_points name) 7 (Py.code_points "2")) as H1
    by (exists (Py.code_points "a@１ms_b"), (Py.code_points "_c@3ms");
        repeat split; discriminate).
  assert (occurs_at (Py.code_points name) 13 (Py.code_points "3")) as H2
    by (exists (Py.code_points "a@１ms_b@2ms_c"), [];
        repeat split; discriminate).
  split; [exact H1|]. split; [exact H2|].
  apply (find_ms_two_patterns name 7 13 (Py.code_points "2")
           (Py.code_points "3") H1 H2).
  discriminate.
Defined.

(** C9, as stated, fails: the duration computed for ["clip@0ms.zip"] is 0. *)
Lemma find_ms_zero : ~ 0 < find_ms_in_filename "clip@0ms.zip".
Proof. vm_compute. discriminate. Qed.

(** C9, amended: the duration is never negative; it is 40 when no
    [@<digits>ms] is found; and it is zero exactly when the digits of the
    leftmost [@<digits>ms] are all zeros, so that it is positive in every
    other case. *)
Theorem find_ms_nonnegative (filename : string) :
  0 <= find_ms_in_filename filename /\
  ((forall p ds, ~ occurs_at (Py.code_points filename) p ds) ->
   find_ms_in_filename filename = 40) /\
  (find_ms_in_filename filename = 0 <->
   exists p ds, leftmost (Py.code_points filename) p ds /\ all_zeros ds = true).
Proof.
  unfold find_ms_in_filename.
  destruct (search_result (Py.code_points filename))
    as [(p & ds & Hl & ->)|[Hn ->]].
  - pose proof (occurs_at_digits _ _ _ (proj1 Hl)) as Hd. unfold Py.int.
    split; [|split].
    + apply (int_from_ge 0 ds Hd). lia.
    + intros Hn. destruct Hl as [Ho _]. now apply Hn in Ho.
    + rewrite (int_from_zero 0 ds Hd) by lia. split.
      * intros [_ Hz]. eauto.
      * intros (p' & ds' & Hl' & Hz).
        now destruct (leftmost_unique _ _ _ _ _ Hl Hl') as [_ ->].
  - split; [lia|]. split; [reflexivity|]. split; [discriminate|].
    intros (p & ds & [Ho _] & _). now apply Hn in Ho.
Qed.

(** ** The size of the pool *)

(** C7, as stated, fails: with 16 processors and 12 archives the archive
    count is below the available parallelism, yet the pool has 10 workers. *)
Lemma pool_size_below_parallelism :
  12 < Py.or_int (Some 16) 4 /\ pool_size None (Some 16) 12 <> 12.
Proof. split; [reflexivity|discriminate]. Qed.

(** C7, amended: for a non-empty archive list and no override the pool has
    [min(availableParallelism, 10, archiveCount)] workers, where the
    available parallelism is the processor count, or 4 when it is unknown;
    this is at least 1 and at most 10; it equals the archive count when that
    is below the available parallelism and at most 10, and it equals
    [min(availableParallelism, 10)] when the archive count is not below the
    available parallelism. *)
Theorem pool_size_default (cpu : option Z) (num_files : Z) :
  (forall c, cpu = Some c -> 0 <= c) -> 1 <= num_files ->
  let available := Py.or_int cpu 4 in
  let size := pool_size None cpu num_files in
  size = Z.min (Z.min available 10) num_files /\
  1 <= size <= 10 /\ size <= num_files /\
  (num_files < available -> num_files <= 10 -> size = num_files) /\
  (available <= num_files -> size = Z.min available 10).
Proof.
  intros Hcpu Hn available size.
  assert (1 <= available) as Ha.
  { subst available. destruct cpu as [c|]; simpl; [|lia].
    specialize (Hcpu c eq_refl). destruct (Z.eqb_spec c 0); lia. }
  subst size. unfold pool_size, Py.min3. fold available. lia.
Qed.

Lemma pool_size_default_witness :
  let available := Py.or_int (Some 16) 4 in
  let size := pool_size None (Some 16) 12 in
  size = Z.min (Z.min available 10) 12 /\
  1 <= size <= 10 /\ size <= 12 /\
  (12 < available -> 12 <= 10 -> size = 12) /\
  (available <= 12 -> size = Z.min available 10).
Proof.
  apply (pool_size_default (Some 16) 12).
  - intros c H. injection H as <-. lia.
  - lia.
Defined.


(** ** Sorting the paths *)

Section Sorting.

Lemma ascii_compare_N (a b : ascii) :
Ascii.compare a b = N.compare (N_of_ascii a) (N_of_ascii b).
Proof. reflexivity. Qed.

Lemma str_le_trans a b c : str_le a b -> str_le b c -> str_le a c.
Proof.
unfold str_le, String.leb. revert b c.
induction a as [|x a IH]; intros [|y b] [|z c]; simpl; try congruence.
rewrite !ascii_compare_N.
destruct (N.compare_spec (N_of_ascii x) (N_of_ascii y)) as [Hxy|Hxy|Hxy];
  destruct (N.compare_spec (N_of_ascii y) (N_of_ascii z)) as [Hyz|Hyz|Hyz];
  try congruence;
  destruct (N.compare_spec (N_of_ascii x) (N_of_ascii z)) as [Hxz|Hxz|Hxz];
  try congruence; try lia.
apply IH.
Qed.

Lemma str_le_total a b : str_le a b \/ str_le b a.
Proof. apply String.leb_total. Qed.

Lemma insert_sorted_perm x l : Permutation (insert_sorted x l) (x :: l).
Proof.
induction l as [|y t IH]; simpl; [reflexivity|].
destruct (String.leb x y); [reflexivity|].
rewrite IH. apply perm_swap.
Qed.

Lemma list_sort_perm l : Permutation (list_sort l) l.
Proof.
induction l as [|x t IH]; simpl; [reflexivity|].
rewrite insert_sorted_perm. now constructor.
Qed.

Lemma insert_sorted_strongly x l :
StronglySorted str_le l -> StronglySorted str_le (insert_sorted x l).
Proof.
induction 1 as [|y t Hs IH Hall]; simpl.
- repeat constructor.
- destruct (String.leb x y) eqn:Hxy.
  + constructor; [now constructor|]. constructor; [exact Hxy|].
    eapply Forall_impl; [|exact Hall]. intros z. now apply str_le_trans.
  + constructor; [exact IH|].
    assert (str_le y x) as Hyx
      by (destruct (str_le_total x y) as [H|H]; [unfold str_le in H; congruence|exact H]).
    rewrite (Forall_forall (str_le y)). intros z Hz.
    apply (Permutation_in _ (insert_sorted_perm x t)) in Hz as [<-|Hz]; [exact Hyx|].
    rewrite Forall_forall in Hall. now apply Hall.
Qed.

Lemma list_sort_strongly l : StronglySorted str_le (list_sort l).
Proof.
induction l as [|x t IH]; simpl; [constructor|].
now apply insert_sorted_strongly.
Qed.

Lemma list_sort_nonempty l : l <> [] -> list_sort l <> [].
Proof.
intros Hl Hs. apply Hl, Permutation_nil.
rewrite <- Hs. apply list_sort_perm.
Qed.

End Sorting.

(** ** The two loops over the images *)

Section Loops.
Context {W image : Type} (E : Env W image).

Lemma state_eta (st : state W image) :
  mkState (world st) (trace st) (stdout st) = st.
Proof. now destruct st. Qed.

Lemma open_images_eq jpg_files : forall images st,
  open_images E jpg_files images st =
  (inr match opened E (world st) jpg_files with
       | inl failure => inl failure
       | inr new => inr (images ++ new)%list
       end,
   mkState (world st) (trace st ++ open_events E (world st) jpg_files)
           (stdout st)).
Proof.
  induction jpg_files as [|f rest IH]; intros images st; simpl.
  - unfold ret. rewrite !app_nil_r, state_eta. reflexivity.
  - unfold bind, try_except, query, invoke, ret. simpl.
    destruct (image_open E f (world st)) as [e|img]; simpl; [reflexivity|].
    rewrite IH. simpl. rewrite <- !app_assoc. simpl.
    destruct (opened E (world st) rest); [reflexivity|].
    now rewrite <- app_assoc.
Qed.

Lemma close_images_eq images : forall st,
  close_images E images st =
  (closed E (world st) images,
   mkState (world st) (trace st ++ close_events E (world st) images)
           (stdout st)).
Proof.
  induction images as [|img rest IH]; intros st; simpl.
  - unfold ret. now rewrite app_nil_r, state_eta.
  - unfold bind, query, invoke. simpl.
    destruct (image_close E img (world st)) as [e|[]]; simpl; [reflexivity|].
    rewrite IH. simpl. now rewrite <- app_assoc.
Qed.

Lemma opened_all w jpg_files images :
  opened E w jpg_files = inr images ->
  Forall2 (fun f img => image_open E f w = inr img) jpg_files images.
Proof.
  revert images. induction jpg_files as [|f rest IH]; simpl; intros images H.
  - injection H as <-. constructor.
  - destruct (image_open E f w) as [e|img] eqn:Hf; [discriminate|].
    destruct (opened E w rest) as [x|imgs]; [discriminate|].
    injection H as <-. constructor; auto.
Qed.

Lemma opened_total w jpg_files :
  Forall (fun f => exists img, image_open E f w = inr img) jpg_files ->
  exists images, opened E w jpg_files = inr images.
Proof.
  induction 1 as [|f rest [img Hf] _ [images IH]]; simpl; [eauto|].
  rewrite Hf, IH. eauto.
Qed.




Lemma open_events_returned w jpg_files images :
  opened E w jpg_files = inr images ->
  Forall returned (open_events E w jpg_files).
Proof.
  revert images. induction jpg_files as [|g rest IH]; simpl; intros images H.
  - constructor.
  - destruct (image_open E g w) as [e'|img] eqn:Hg; [discriminate|].
    destruct (opened E w rest) as [x|imgs] eqn:Hr; [discriminate|].
    constructor; [reflexivity|eauto].
Qed.

Lemma open_events_no_save w jpg_files :
  forallb (fun ev => negb (is_save ev)) (open_events E w jpg_files) = true.
Proof.
  induction jpg_files as [|g rest IH]; simpl; [reflexivity|].
  destruct (image_open E g w); simpl; auto.
Qed.

Lemma close_events_returned w images :
  closed E w images = inr tt -> Forall returned (close_events E w images).
Proof.
  induction images as [|img rest IH]; simpl; intros H; [constructor|].
  destruct (image_close E img w) as [e|[]]; [discriminate|].
  constructor; [reflexivity|auto].
Qed.

Lemma close_events_no_save w images :
  forallb (fun ev => negb (is_save ev)) (close_events E w images) = true.
Proof.
  induction images as [|img rest IH]; simpl; [reflexivity|].
  destruct (image_close E img w); simpl; auto.
Qed.

End Loops.


(** ** The archive processor *)

Section Archive.
Context {W image : Type} (E : Env W image).

Ltac unfold_run :=
  unfold process_zip_file, process_zip_body, with_TemporaryDirectory,
    try_except, on_exit, bind, read, invoke, query, ret, raise.

Local Arguments open_images : simpl never.
Local Arguments close_images : simpl never.
Local Arguments opened : simpl never.
Local Arguments open_events : simpl never.
Local Arguments closed : simpl never.
Local Arguments close_events : simpl never.

Ltac finish :=
  simpl; rewrite <- ?app_assoc; simpl;
  (do 4 eexists); (split; [reflexivity|]);
  repeat split; auto; try discriminate; simpl; auto 10.

(** The run of [process_zip_file] up to the point where the image files
    are known. *)
Lemma process_zip_file_no_images zip_path st temp_dir w2 :
  extracted E zip_path (world st) temp_dir w2 [] ->
  process_zip_file E zip_path st =
  let r := cleanup E temp_dir w2 in
  (inr match fst r with
       | inl e => (zip_path, "error", exc_str e)
       | inr _ => (zip_path, "warning", "没有找到JPG文件")
       end,
   mkState (snd r)
           (trace st ++ extraction_events E zip_path temp_dir
                     ++ [(Cleanup temp_dir, raised (fst r))])
           (stdout st)).
Proof.
  intros (Hgif & w1 & walked & Hmk & Hex & Hwalk & Hjpg).
  unfold_run. rewrite Hgif. simpl. rewrite Hmk. simpl. rewrite Hex. simpl.
  rewrite Hwalk. simpl. rewrite <- Hjpg. simpl.
  destruct (cleanup E temp_dir w2) as [[e|[]] w3]; simpl;
    now rewrite <- !app_assoc.
Qed.

(** Every run of [process_zip_file]: it returns a tuple for its archive,
    leaves the printed lines alone and only adds calls to the trace. *)
Lemma process_zip_file_shape zip_path st :
  exists status message w' evs,
    process_zip_file E zip_path st =
    (inr (zip_path, status, message),
     mkState w' (trace st ++ evs) (stdout st)) /\
    (status = "error" \/ Forall returned evs) /\
    (status = "warning" ->
     message = "没有找到JPG文件" /\
     forallb (fun ev => negb (is_open ev) && negb (is_save ev)) evs = true) /\
    (status = "skip" ->
     evs = [] /\ w' = world st /\
     path_exists E (gif_path_of E zip_path) (world st) = true) /\
    (status = "success" ->
     message = gif_path_of E zip_path /\
     path_exists E (gif_path_of E zip_path) (world st) = false /\
     exists first others, In (encode_call E zip_path first others, None) evs) /\
    In status ["success"; "skip"; "warning"; "error"].
Proof.
  unfold_run.
  destruct (path_exists E (gif_path_of E zip_path) (world st)) eqn:Hgif; simpl.
  { exists "skip", "对应的GIF已存在", (world st), []. rewrite app_nil_r, state_eta.
    repeat split; auto; try discriminate; simpl; auto. }
  destruct (mkdtemp E "gif_frames_" (dirname E zip_path) (world st))
    as [[e|temp_dir] w1]; simpl.
  { exists "error", (exc_str e), w1. eexists. split; [reflexivity|].
    repeat split; auto; try discriminate; simpl; auto. }
  destruct (extractall E zip_path temp_dir w1) as [[e|[]] w2]; simpl.
  { destruct (cleanup E temp_dir w2) as [[e'|[]] w3]; finish. }
  destruct (walk E temp_dir w2) as [e|walked]; simpl.
  { destruct (cleanup E temp_dir w2) as [[e'|[]] w3]; finish. }
  destruct (collect E [".jpg"; ".jpeg"] walked) as [|f0 files] eqn:Hjpg; simpl.
  { destruct (cleanup E temp_dir w2) as [[e'|[]] w3]; finish.
    right. repeat constructor. }
  rewrite open_images_eq. simpl.
  set (sorted := insert_sorted f0 (list_sort files)).
  destruct (opened E w2 sorted) as [[f e]|images] eqn:Hopen; simpl.
  { destruct (cleanup E temp_dir w2) as [[e'|[]] w3]; finish. }
  destruct images as [|first others]; simpl.
  { exfalso. apply opened_all, Forall2_length in Hopen.
    assert (sorted <> []) as Hne
      by (apply (list_sort_nonempty (f0 :: files)); discriminate).
    destruct sorted; [congruence|discriminate]. }
  destruct (image_save E _ w2) as [[e|[]] w3] eqn:Hsave; simpl.
  { destruct (cleanup E temp_dir w3) as [[e'|[]] w4]; finish. }
  rewrite close_images_eq. simpl.
  destruct (closed E w3 (first :: others)) as [e|[]] eqn:Hclose; simpl.
  { destruct (cleanup E temp_dir w3) as [[e'|[]] w4]; finish. }
  destruct (cleanup E temp_dir w3) as [[e'|[]] w4]; finish.
  - right. do 3 (constructor; [reflexivity|]).
    apply Forall_app; split; [eapply open_events_returned; eauto|].
    constructor; [reflexivity|].
    apply Forall_app; split; [now apply close_events_returned|].
    repeat constructor.
  - exists first, others. do 3 right. rewrite in_app_iff. right. now left.
Qed.

Lemma process_zip_file_skip zip_path st :
  path_exists E (gif_path_of E zip_path) (world st) = true ->
  process_zip_file E zip_path st =
  (inr (zip_path, "skip", "对应的GIF已存在"), st).
Proof. intros Hgif. unfold_run. now rewrite Hgif. Qed.

Lemma run_pool_skip order st :
  (forall zip_path, In zip_path order ->
     path_exists E (gif_path_of E zip_path) (world st) = true) ->
  run_pool E order st =
  (inr (map (fun zip_path =>
               (zip_path, inr (zip_path, "skip", "对应的GIF已存在")))
            order),
   st).
Proof.
  induction order as [|zip_path rest IH]; intros Hall; simpl; [reflexivity|].
  unfold bind, try_except, ret.
  rewrite process_zip_file_skip by (apply Hall; now left).
  rewrite IH by (intros z Hz; apply Hall; now right). reflexivity.
Qed.


(** The run of [process_zip_file] up to the encode call, when every image
    opens. *)
Lemma process_zip_file_encodes zip_path st temp_dir w2 jpg_files first others :
  extracted E zip_path (world st) temp_dir w2 jpg_files ->
  opened E w2 (list_sort jpg_files) = inr (first :: others) ->
  exists r evs,
    trace (snd (process_zip_file E zip_path st)) =
    (trace st ++ extraction_events E zip_path temp_dir
              ++ open_events E w2 (list_sort jpg_files)
              ++ (encode_call E zip_path first others, r) :: evs)%list /\
    forallb (fun ev => negb (is_save ev)) evs = true.
Proof.
  intros (Hgif & w1 & walked & Hmk & Hex & Hwalk & Hjpg) Hopen.
  unfold_run. rewrite Hgif. simpl. rewrite Hmk. simpl. rewrite Hex. simpl.
  rewrite Hwalk. simpl. rewrite <- Hjpg.
  destruct jpg_files as [|f0 files]; [discriminate|]. simpl.
  rewrite open_images_eq. simpl. simpl in Hopen. rewrite Hopen. simpl.
  fold (encode_call E zip_path first others).
  destruct (image_save E _ w2) as [[e|[]] w3]; simpl.
  { destruct (cleanup E temp_dir w3) as [[e'|[]] w4]; simpl;
      rewrite <- !app_assoc; simpl; do 2 eexists; split; reflexivity. }
  rewrite close_images_eq. simpl.
  pose proof (close_events_no_save E w3 (first :: others)) as Hcl.
  destruct (closed E w3 (first :: others)) as [e|[]]; simpl;
    destruct (cleanup E temp_dir w3) as [[e'|[]] w4]; simpl;
    rewrite <- !app_assoc; simpl; do 2 eexists;
    (split; [reflexivity|]);
    rewrite forallb_app, Hcl; reflexivity.
Qed.

End Archive.


(** ** Claims about the archive processor *)

(** C1: whatever fails while an archive is processed, [process_zip_file]
    returns a tuple for that archive and raises nothing.  When the body of
    its [try] raises [e], the tuple is the error outcome carrying [str(e)];
    and whenever some call made during the run raised, the status returned
    is ["error"]. *)
Theorem process_zip_file_never_raises {W image : Type} (E : Env W image)
    (zip_path : string) (st : state W image) :
  exists status message st',
    process_zip_file E zip_path st = (inr (zip_path, status, message), st') /\
    (forall e st1, process_zip_body E zip_path st = (inl e, st1) ->
                   status = "error" /\ message = exc_str e /\ st' = st1) /\
    exists evs,
      trace st' = (trace st ++ evs)%list /\
      forall c e, In (c, Some e) evs -> status = "error".
Proof.
  destruct (process_zip_file_shape E zip_path st)
    as (status & message & w' & evs & Hrun & Herr & _).
  exists status, message, (mkState w' (trace st ++ evs) (stdout st)).
  split; [exact Hrun|]. split.
  - intros e st1 Hbody. unfold process_zip_file, try_except, ret in Hrun.
    rewrite Hbody in Hrun. injection Hrun as <- <- <-. auto.
  - exists evs. split; [reflexivity|]. intros c e Hin.
    destruct Herr as [Herr|Hall]; [exact Herr|].
    rewrite Forall_forall in Hall. apply Hall in Hin. discriminate.
Qed.

Example corrupt_archive_is_an_error :
  fst (process_zip_body (Sim.env [] [] None) Sim.clip_zip
                        (Sim.start [Sim.clip_zip])) =
  inl (mkException "BadZipFile" "File is not a zip file") /\
  fst (process_zip_file (Sim.env [] [] None) Sim.clip_zip
                        (Sim.start [Sim.clip_zip])) =
  inr (Sim.clip_zip, "error", "File is not a zip file").
Proof. split; reflexivity. Qed.

(** C3: when every image file found in the extracted archive opens, the
    encode call is made once, on the output path, with the frames in the
    ascending order of their paths: the image of the least path is the one
    [save] is called on, the images of the other paths follow in
    [append_images] in that order, with [save_all] set, [duration] the
    interval extracted from the archive's base name, [loop] 0 and
    [disposal] 2. *)
Theorem encode_receives_sorted_frames {W image : Type} (E : Env W image)
    (zip_path : string) (st : state W image) (temp_dir : string) (w2 : W)
    (jpg_files : list string) :
  extracted E zip_path (world st) temp_dir w2 jpg_files ->
  jpg_files <> [] ->
  Forall (fun f => exists img, image_open E f w2 = inr img) jpg_files ->
  exists sorted first others r evs,
    sorted = list_sort jpg_files /\
    StronglySorted str_le sorted /\ Permutation sorted jpg_files /\
    Forall2 (fun f img => image_open E f w2 = inr img) sorted (first :: others) /\
    trace (snd (process_zip_file E zip_path st)) =
    (trace st ++ extraction_events E zip_path temp_dir
              ++ open_events E w2 sorted
              ++ (ImageSave (mkSave first (gif_path_of E zip_path) true others
                                    (find_ms_in_filename (basename E zip_path))
                                    0 2), r) :: evs)%list /\
    forallb (fun ev => negb (is_save ev)) (open_events E w2 sorted ++ evs) = true.
Proof.
  intros Hext Hne Hall.
  assert (Forall (fun f => exists img, image_open E f w2 = inr img)
                 (list_sort jpg_files)) as Hall'.
  { rewrite Forall_forall in *. intros f Hf. apply Hall.
    eapply Permutation_in; [apply list_sort_perm|exact Hf]. }
  destruct (opened_total E w2 _ Hall') as [images Hopen].
  pose proof (opened_all E w2 _ _ Hopen) as H2.
  destruct images as [|first others].
  { apply Forall2_length in H2. apply list_sort_nonempty in Hne.
    destruct (list_sort jpg_files); [congruence|discriminate]. }
  destruct (process_zip_file_encodes E zip_path st temp_dir w2 jpg_files
              first others Hext Hopen) as (r & evs & Htrace & Hns).
  exists (list_sort jpg_files), first, others, r, evs.
  repeat split; auto using list_sort_strongly, list_sort_perm.
  rewrite forallb_app, Hns, open_events_no_save. reflexivity.
Qed.

Lemma clip_extracted_ok :
  extracted Sim.clip_env Sim.clip_zip [Sim.clip_zip] Sim.scratch
            Sim.clip_extracted Sim.clip_jpg_files.
Proof.
  split; [reflexivity|].
  exists [Sim.clip_zip], [(Sim.scratch, Sim.clip_members)].
  repeat split; reflexivity.
Defined.

Lemma encode_receives_sorted_frames_witness :
  exists sorted first others r evs,
    sorted = list_sort Sim.clip_jpg_files /\
    StronglySorted str_le sorted /\ Permutation sorted Sim.clip_jpg_files /\
    Forall2 (fun f img => image_open Sim.clip_env f Sim.clip_extracted = inr img)
            sorted (first :: others) /\
    trace (snd (process_zip_file Sim.clip_env Sim.clip_zip
                                 (Sim.start [Sim.clip_zip]))) =
    (trace (Sim.start [Sim.clip_zip])
       ++ extraction_events Sim.clip_env Sim.clip_zip Sim.scratch
       ++ open_events Sim.clip_env Sim.clip_extracted sorted
       ++ (ImageSave (mkSave first (gif_path_of Sim.clip_env Sim.clip_zip) true
                             others
                             (find_ms_in_filename
                                (basename Sim.clip_env Sim.clip_zip))
                             0 2), r) :: evs)%list /\
    forallb (fun ev => negb (is_save ev))
            (open_events Sim.clip_env Sim.clip_extracted sorted ++ evs) = true.
Proof.
  apply (encode_receives_sorted_frames Sim.clip_env Sim.clip_zip
           (Sim.start [Sim.clip_zip]) Sim.scratch Sim.clip_extracted
           Sim.clip_jpg_files).
  - exact clip_extracted_ok.
  - discriminate.
  - repeat constructor; eexists; reflexivity.
Defined.

Example clip_encode_call :
  filter is_save (trace (snd (process_zip_file Sim.clip_env Sim.clip_zip
                                               (Sim.start [Sim.clip_zip])))) =
  [(ImageSave (mkSave "d/gif_frames_0/a.jpg" "d/clip@100ms.gif" true
                      ["d/gif_frames_0/b.jpg"; "d/gif_frames_0/c.JPG"]
                      100 0 2), None)].
Proof. reflexivity. Qed.

(** The interval of a name written with digits of another script reaches
    the encoder. *)
Example fullwidth_clip_encode_call :
  filter is_save
         (trace (snd (process_zip_file
                        (Sim.env [("d/clip@１２ms.zip", ["a.jpg"])] [] None)
                        "d/clip@１２ms.zip"
                        (Sim.start ["d/clip@１２ms.zip"])))) =
  [(ImageSave (mkSave "d/gif_frames_0/a.jpg" "d/clip@１２ms.gif" true [] 12 0 2),
    None)].
Proof. reflexivity. Qed.

(** C4, as stated, fails: an archive without images gets a warning on the
    first run, which writes no output and leaves the folder as it was; the
    second run extracts the archive again and gives the same warning, not a
    skip. *)
Lemma second_run_repeats_warning :
  let first_run := run_pool Sim.notes_env [Sim.clip_zip]
                            (Sim.start [Sim.clip_zip]) in
  let second_run := run_pool Sim.notes_env [Sim.clip_zip]
                             (Sim.start (world (snd first_run))) in
  world (snd first_run) = [Sim.clip_zip] /\
  fst second_run =
  inr [(Sim.clip_zip, inr (Sim.clip_zip, "warning", "没有找到JPG文件"))] /\
  filter is_extract (trace (snd second_run)) =
  [(Extractall Sim.clip_zip Sim.scratch, None)].
Proof. repeat split. Qed.

(** C4, amended: when a file exists at the output path computed for an
    archive, [process_zip_file] returns the skip outcome at once: no call is
    made, so nothing is extracted, decoded or written, and the world is
    unchanged.  Consequently a run over archives that all have their output
    makes no call, changes nothing and yields skip outcomes only.  An
    archive is skipped in no other case: a skip outcome is returned only
    when the output exists, so an archive that a first run left without
    output is processed again by the next. *)
Theorem skip_when_output_exists {W image : Type} (E : Env W image)
    (order : list string) (st : state W image) :
  (forall zip_path, In zip_path order ->
     path_exists E (gif_path_of E zip_path) (world st) = true) ->
  (forall zip_path, In zip_path order ->
     process_zip_file E zip_path st =
     (inr (zip_path, "skip", "对应的GIF已存在"), st)) /\
  run_pool E order st =
  (inr (map (fun zip_path =>
               (zip_path, inr (zip_path, "skip", "对应的GIF已存在")))
            order),
   st) /\
  (forall zip_path st0 o st',
     process_zip_file E zip_path st0 = (inr o, st') ->
     status_of o = "skip" ->
     path_exists E (gif_path_of E zip_path) (world st0) = true /\ st' = st0).
Proof.
  intros Hall. split; [|split].
  - intros zip_path Hin. apply process_zip_file_skip. auto.
  - apply run_pool_skip. exact Hall.
  - intros zip_path st0 o st' Hrun Hstatus.
    destruct (process_zip_file_shape E zip_path st0)
      as (status & message & w' & evs & Hrun' & _ & _ & Hskip & _).
    rewrite Hrun' in Hrun. injection Hrun as <- <-.
    destruct (Hskip Hstatus) as (-> & -> & Hgif).
    split; [exact Hgif|]. rewrite app_nil_r. apply state_eta.
Qed.

Lemma skip_when_output_exists_witness :
  let st1 := snd (run_pool Sim.clip_env [Sim.clip_zip]
                           (Sim.start [Sim.clip_zip])) in
  world st1 = [Sim.clip_zip; "d/clip@100ms.gif"] /\
  (forall zip_path, In zip_path [Sim.clip_zip] ->
     process_zip_file Sim.clip_env zip_path st1 =
     (inr (zip_path, "skip", "对应的GIF已存在"), st1)) /\
  run_pool Sim.clip_env [Sim.clip_zip] st1 =
  (inr [(Sim.clip_zip, inr (Sim.clip_zip, "skip", "对应的GIF已存在"))], st1) /\
  (forall zip_path st0 o st',
     process_zip_file Sim.clip_env zip_path st0 = (inr o, st') ->
     status_of o = "skip" ->
     path_exists Sim.clip_env (gif_path_of Sim.clip_env zip_path) (world st0)
     = true /\ st' = st0).
Proof.
  intros st1. split; [reflexivity|].
  apply (skip_when_output_exists Sim.clip_env [Sim.clip_zip] st1).
  intros zip_path [<-|[]]. reflexivity.
Defined.

(** C5, as stated, fails: in an archive whose only image file does not
    decode, an image file is found and no image is decoded, yet the outcome
    is an error, not a warning. *)
Lemma undecodable_image_is_an_error :
  extracted Sim.broken_env Sim.clip_zip [Sim.clip_zip] Sim.scratch
            [Sim.clip_zip; "d/gif_frames_0/a.jpg"] ["d/gif_frames_0/a.jpg"] /\
  image_open Sim.broken_env "d/gif_frames_0/a.jpg"
             [Sim.clip_zip; "d/gif_frames_0/a.jpg"] =
  inl (mkException "UnidentifiedImageError" "cannot identify image file") /\
  exists message,
    fst (process_zip_file Sim.broken_env Sim.clip_zip
                          (Sim.start [Sim.clip_zip])) =
    inr (Sim.clip_zip, "error", message) /\
    "error" <> "warning".
Proof.
  split; [|split].
  - split; [reflexivity|].
    exists [Sim.clip_zip], [(Sim.scratch, ["a.jpg"])]. repeat split; reflexivity.
  - reflexivity.
  - eexists. split; [reflexivity|discriminate].
Qed.

(** C5, amended: when no image file is found after extraction (and the
    scratch directory is then removed without error), the outcome is the
    warning and no encode call is made, so no output file is created.  The
    warning is given in no other case: any warning outcome carries the
    message of that case and comes from a run that opened no image and made
    no encode call; image files of which none decodes give an error. *)
Theorem warning_when_no_images {W image : Type} (E : Env W image)
    (zip_path : string) (st : state W image) (temp_dir : string) (w2 w3 : W) :
  extracted E zip_path (world st) temp_dir w2 [] ->
  cleanup E temp_dir w2 = (inr tt, w3) ->
  process_zip_file E zip_path st =
  (inr (zip_path, "warning", "没有找到JPG文件"),
   mkState w3
           (trace st ++ extraction_events E zip_path temp_dir
                     ++ [(Cleanup temp_dir, None)])
           (stdout st)) /\
  forall zip_path' st0 o st',
    process_zip_file E zip_path' st0 = (inr o, st') ->
    status_of o = "warning" ->
    message_of o = "没有找到JPG文件" /\
    exists evs,
      trace st' = (trace st0 ++ evs)%list /\
      forallb (fun ev => negb (is_open ev) && negb (is_save ev)) evs = true.
Proof.
  intros Hext Hclean. split.
  - rewrite (process_zip_file_no_images E zip_path st temp_dir w2 Hext).
    rewrite Hclean. reflexivity.
  - intros zip_path' st0 o st' Hrun Hstatus.
    destruct (process_zip_file_shape E zip_path' st0)
      as (status & message & w' & evs & Hrun' & _ & Hwarn & _).
    rewrite Hrun' in Hrun. injection Hrun as <- <-.
    destruct (Hwarn Hstatus) as [-> Hevs]. split; [reflexivity|].
    exists evs. auto.
Qed.

Lemma warning_when_no_images_witness :
  let E := Sim.notes_env in
  let st := Sim.start [Sim.clip_zip] in
  process_zip_file E Sim.clip_zip st =
  (inr (Sim.clip_zip, "warning", "没有找到JPG文件"),
   mkState [Sim.clip_zip]
           (trace st ++ extraction_events E Sim.clip_zip Sim.scratch
                     ++ [(Cleanup Sim.scratch, None)])
           (stdout st)) /\
  forall zip_path' st0 o st',
    process_zip_file E zip_path' st0 = (inr o, st') ->
    status_of o = "warning" ->
    message_of o = "没有找到JPG文件" /\
    exists evs,
      trace st' = (trace st0 ++ evs)%list /\
      forallb (fun ev => negb (is_open ev) && negb (is_save ev)) evs = true.
Proof.
  intros E st.
  apply (warning_when_no_images E Sim.clip_zip st Sim.scratch
           [Sim.clip_zip; "d/gif_frames_0/notes.txt"] [Sim.clip_zip]).
  - split; [reflexivity|].
    exists [Sim.clip_zip], [(Sim.scratch, ["notes.txt"])].
    repeat split; reflexivity.
  - reflexivity.
Defined.




Example damaged_archive_outcome :
  fst (process_zip_file Sim.damaged_env Sim.clip_zip (Sim.start [Sim.clip_zip])) =
  inr (Sim.clip_zip, "error",
       "无法处理图像 d/gif_frames_0/b.jpg: cannot identify image file").
Proof. reflexivity. Qed.


(** ** The batch coordinator *)

Section Batch.



Lemma count_cons {A} (f : A -> bool) x l :
  count f (x :: l) = count f [x] + count f l.
Proof. unfold count. cbn [filter]. destruct (f x); cbn [List.length]; lia. Qed.







End Batch.

Section Folder.
Context {W image : Type} (E : Env W image).




End Folder.


(** ** Claims about the batch coordinator *)


(** The scenario of a folder holding [clip@100ms.zip] with three frames. *)
Example clip_folder_run :
  stdout (snd (process_folder Sim.clip_env (fun l => l) "d" None
                              (Sim.start [Sim.clip_zip]))) =
  ["✓ 已生成: d/clip@100ms.gif";
   String "010" "处理完成: 共处理 1 个文件";
   "✓ 成功: 1"; "↺ 跳过: 0"; "✗ 失败: 0"].
Proof. reflexivity. Qed.

Example mixed_outcomes_tally :
  drain (mkTally 0 0 0)
        [("a.zip", inr ("a.zip", "skip", "对应的GIF已存在"));
         ("b.zip", inl (mkException "RuntimeError" "boom"));
         ("c.zip", inr ("c.zip", "warning", "没有找到JPG文件"));
         ("d.zip", inr ("d.zip", "success", "d.gif"));
         ("e.zip", inr ("e.zip", "error", "File is not a zip file"))] =
  (mkTally 1 1 2,
   ["✗ 处理 b.zip 时发生未知错误: boom";
    "⚠️ 警告: c.zip - 没有找到JPG文件";
    "✓ 已生成: d.gif";
    "✗ 处理 e.zip 时出错: File is not a zip file"]).
Proof. reflexivity. Qed.


(** * Further properties of the program *)

(** ** Runs of the archive processor *)

Section ArchiveRuns.
Context {W image : Type} (E : Env W image).

Lemma open_events_opens w jpg_files images :
opened E w jpg_files = inr images ->
open_events E w jpg_files = opens jpg_files.
Proof.
revert images. induction jpg_files as [|f rest IH]; intros images H.
- reflexivity.
- cbn [opened] in H. cbn [open_events opens map].
  destruct (image_open E f w) as [e|img]; [discriminate|].
  destruct (opened E w rest) as [x|imgs] eqn:Hr; [discriminate|].
  now rewrite (IH imgs).
Qed.

Lemma close_events_closes w images :
closed E w images = inr tt ->
close_events E w images = closes images.
Proof.
induction images as [|img rest IH]; intros H; [reflexivity|].
cbn [closed] in H. cbn [close_events closes map].
destruct (image_close E img w) as [e|[]]; [discriminate|].
now rewrite IH.
Qed.

Lemma open_events_inside w jpg_files :
forallb (fun ev => negb (is_cleanup ev) && negb (is_mkdtemp ev))
        (open_events E w jpg_files) = true.
Proof.
induction jpg_files as [|f rest IH]; [reflexivity|]. cbn [open_events].
destruct (image_open E f w); simpl; auto.
Qed.

Lemma close_events_inside w images :
forallb (fun ev => negb (is_cleanup ev) && negb (is_mkdtemp ev))
        (close_events E w images) = true.
Proof.
induction images as [|img rest IH]; [reflexivity|]. cbn [close_events].
destruct (image_close E img w); simpl; auto.
Qed.

Local Arguments open_images : simpl never.
Local Arguments close_images : simpl never.
Local Arguments opened : simpl never.
Local Arguments open_events : simpl never.
Local Arguments closed : simpl never.
Local Arguments close_events : simpl never.

Ltac run_step :=
match goal with
| |- context [path_exists E ?p ?x] =>
    destruct (path_exists E p x) eqn:?Hgif
| |- context [mkdtemp E ?a ?b ?x] =>
    destruct (mkdtemp E a b x) as [[?e|?temp_dir] ?w] eqn:?Hmk
| |- context [extractall E ?a ?b ?x] =>
    destruct (extractall E a b x) as [[?e|[]] ?w] eqn:?Hex
| |- context [walk E ?a ?x] =>
    destruct (walk E a x) as [?e|?walked] eqn:?Hwalk
| |- context [collect E ?s ?l] =>
    destruct (collect E s l) as [|?f0 ?files] eqn:?Hjpg
| |- context [open_images E ?l ?i ?s] => rewrite (open_images_eq E l i s)
| |- context [opened E ?x ?l] =>
    destruct (opened E x l) as [[?f ?e]|[|?first ?others]] eqn:?Hopen
| |- context [image_save E ?a ?x] =>
    destruct (image_save E a x) as [[?e|[]] ?w] eqn:?Hsave
| |- context [close_images E ?l ?s] => rewrite (close_images_eq E l s)
| |- context [closed E ?x ?l] =>
    destruct (closed E x l) as [?e|[]] eqn:?Hclose
| |- context [cleanup E ?a ?x] =>
    destruct (cleanup E a x) as [[?e|[]] ?w] eqn:?Hclean
end; simpl.

Ltac run_cases :=
unfold process_zip_file, process_zip_body, with_TemporaryDirectory,
  try_except, on_exit, bind, read, invoke, query, ret, raise;
repeat run_step.

Lemma opened_sorted_nonempty w f0 files :
opened E w (insert_sorted f0 (list_sort files)) <> inr [].
Proof.
intros H. apply opened_all, Forall2_length in H.
assert (list_sort (f0 :: files) <> []) as Hne
  by (apply list_sort_nonempty; discriminate).
simpl in Hne. destruct (insert_sorted f0 (list_sort files)); [congruence|].
discriminate.
Qed.

(** X1: A success outcome comes only from a run in which the output was
  absent, the archive was extracted into a fresh scratch directory, at
  least one image file was found, every image opened, the encode call
  returned, every frame was closed and the scratch directory was removed;
  these are all the calls of the run, in this order, each of which
  returned normally, and the message is the output path. *)
Theorem success_run zip_path st message st' :
process_zip_file E zip_path st = (inr (zip_path, "success", message), st') ->
exists temp_dir w2 jpg_files first others w3,
  extracted E zip_path (world st) temp_dir w2 jpg_files /\
  jpg_files <> [] /\
  opened E w2 (list_sort jpg_files) = inr (first :: others) /\
  image_save E (mkSave first (gif_path_of E zip_path) true others
                       (find_ms_in_filename (basename E zip_path)) 0 2) w2 =
  (inr tt, w3) /\
  closed E w3 (first :: others) = inr tt /\
  cleanup E temp_dir w3 = (inr tt, world st') /\
  message = gif_path_of E zip_path /\
  stdout st' = stdout st /\
  trace st' =
  (trace st ++ extraction_events E zip_path temp_dir
            ++ opens (list_sort jpg_files)
            ++ [(encode_call E zip_path first others, None)]
            ++ closes (first :: others)
            ++ [(Cleanup temp_dir, None)])%list.
Proof.
run_cases; intros H; try discriminate H.
injection H as <- <-. cbn [world trace stdout].
exists temp_dir, w0, (f0 :: files), first, others, w1.
split; [split; [exact Hgif|]; exists w, walked; auto|].
split; [discriminate|]. split; [exact Hopen|]. split; [exact Hsave|].
split; [exact Hclose|]. split; [exact Hclean|]. split; [reflexivity|].
split; [reflexivity|].
rewrite <- !app_assoc.
change (list_sort (f0 :: files)) with (insert_sorted f0 (list_sort files)).
rewrite (open_events_opens _ _ _ Hopen), (close_events_closes _ _ Hclose).
reflexivity.
Qed.

Lemma ends_removing_last temp_dir r :
@ends_removing image temp_dir [(Cleanup temp_dir, r)].
Proof. now exists [], r. Qed.

Lemma ends_removing_cons temp_dir (ev : event image) l :
negb (is_cleanup ev) && negb (is_mkdtemp ev) = true ->
ends_removing temp_dir l -> ends_removing temp_dir (ev :: l).
Proof.
intros Hev (inside & r & -> & H). exists (ev :: inside), r.
simpl. now rewrite Hev, H.
Qed.

Lemma ends_removing_app temp_dir (l1 l2 : list (event image)) :
forallb (fun ev => negb (is_cleanup ev) && negb (is_mkdtemp ev)) l1 = true ->
ends_removing temp_dir l2 -> ends_removing temp_dir (l1 ++ l2).
Proof.
intros H1 (inside & r & -> & H). exists (l1 ++ inside)%list, r.
now rewrite app_assoc, forallb_app, H1, H.
Qed.

(** X2: Whatever happens in between, a run that obtained a scratch directory
  ends with the call that removes it, made once; a run that did not
  obtain one (the output exists, or the directory could not be made)
  makes no such call. *)
Theorem scratch_removed_last zip_path st :
exists evs,
  trace (snd (process_zip_file E zip_path st)) = (trace st ++ evs)%list /\
  match path_exists E (gif_path_of E zip_path) (world st),
        fst (mkdtemp E "gif_frames_" (dirname E zip_path) (world st)) with
  | true, _ => evs = []
  | false, inl e =>
      evs = [(Mkdtemp "gif_frames_" (dirname E zip_path), Some e)]
  | false, inr temp_dir =>
      exists inside r,
        evs = ((Mkdtemp "gif_frames_" (dirname E zip_path), None)
                 :: inside ++ [(Cleanup temp_dir, r)])%list /\
        forallb (fun ev => negb (is_cleanup ev) && negb (is_mkdtemp ev))
                inside = true
  end.
Proof.
assert (forall temp_dir (l : list (event image)),
          ends_removing temp_dir l ->
          exists inside r,
            ((Mkdtemp "gif_frames_" (dirname E zip_path), None) :: l
             = (Mkdtemp "gif_frames_" (dirname E zip_path), None)
                 :: inside ++ [(Cleanup temp_dir, r)])%list /\
            forallb (fun ev => negb (is_cleanup ev) && negb (is_mkdtemp ev))
                    inside = true) as Hwrap
  by (intros t l (inside & r & -> & H); now exists inside, r).
run_cases; rewrite <- ?app_assoc; simpl.
{ exists []. now rewrite app_nil_r. }
{ eexists. split; reflexivity. }
all: eexists; (split; [reflexivity|]); apply Hwrap;
  repeat first
    [ apply ends_removing_last
    | apply ends_removing_cons; [reflexivity|]
    | apply ends_removing_app;
      [first [apply open_events_inside | apply close_events_inside]|] ].
Qed.

(** X3: A corrupt or unreadable archive: when extraction raises [e] (and the
  scratch directory is then removed), the outcome is the error carrying
  [str(e)], and the run makes no other call: nothing is walked, opened or
  encoded. *)
Theorem extraction_failure zip_path st temp_dir w1 w2 w3 e :
path_exists E (gif_path_of E zip_path) (world st) = false ->
mkdtemp E "gif_frames_" (dirname E zip_path) (world st) = (inr temp_dir, w1) ->
extractall E zip_path temp_dir w1 = (inl e, w2) ->
cleanup E temp_dir w2 = (inr tt, w3) ->
process_zip_file E zip_path st =
(inr (zip_path, "error", exc_str e),
 mkState w3
         (trace st ++ [(Mkdtemp "gif_frames_" (dirname E zip_path), None);
                       (Extractall zip_path temp_dir, Some e);
                       (Cleanup temp_dir, None)])
         (stdout st)).
Proof.
intros Hgif Hmk Hex Hclean.
unfold process_zip_file, process_zip_body, with_TemporaryDirectory,
  try_except, on_exit, bind, read, invoke, query, ret, raise.
rewrite Hgif. simpl. rewrite Hmk. simpl. rewrite Hex. simpl.
rewrite Hclean. simpl. now rewrite <- !app_assoc.
Qed.

(** X4: When the encode call raises [e] (and the scratch directory is then
  removed), the outcome is the error carrying [str(e)]; the encode call is
  the last call before the removal, so none of the frames is closed. *)
Theorem encode_failure zip_path st temp_dir w2 jpg_files first others e w3 w4 :
extracted E zip_path (world st) temp_dir w2 jpg_files ->
opened E w2 (list_sort jpg_files) = inr (first :: others) ->
image_save E (mkSave first (gif_path_of E zip_path) true others
                     (find_ms_in_filename (basename E zip_path)) 0 2) w2 =
(inl e, w3) ->
cleanup E temp_dir w3 = (inr tt, w4) ->
process_zip_file E zip_path st =
(inr (zip_path, "error", exc_str e),
 mkState w4
         (trace st ++ extraction_events E zip_path temp_dir
                   ++ opens (list_sort jpg_files)
                   ++ [(encode_call E zip_path first others, Some e);
                       (Cleanup temp_dir, None)])
         (stdout st)).
Proof.
intros (Hgif & w1 & walked & Hmk & Hex & Hwalk & Hjpg) Hopen Hsave Hclean.
unfold process_zip_file, process_zip_body, with_TemporaryDirectory,
  try_except, on_exit, bind, read, invoke, query, ret, raise.
rewrite Hgif. simpl. rewrite Hmk. simpl. rewrite Hex. simpl.
rewrite Hwalk. simpl. rewrite <- Hjpg.
destruct jpg_files as [|f0 files]; [discriminate|]. simpl.
rewrite open_images_eq. simpl. simpl in Hopen.
rewrite Hopen. simpl. rewrite Hsave. simpl. rewrite Hclean. simpl.
rewrite <- !app_assoc. rewrite (open_events_opens _ _ _ Hopen). reflexivity.
Qed.

(** X5: When everything up to the closing of the frames went well but the
  removal of the scratch directory raises [e], the outcome is the error
  carrying [str(e)], although the encode call has returned normally. *)
Theorem cleanup_failure_after_encode zip_path st temp_dir w2 jpg_files
  first others e w3 w4 :
extracted E zip_path (world st) temp_dir w2 jpg_files ->
opened E w2 (list_sort jpg_files) = inr (first :: others) ->
image_save E (mkSave first (gif_path_of E zip_path) true others
                     (find_ms_in_filename (basename E zip_path)) 0 2) w2 =
(inr tt, w3) ->
closed E w3 (first :: others) = inr tt ->
cleanup E temp_dir w3 = (inl e, w4) ->
process_zip_file E zip_path st =
(inr (zip_path, "error", exc_str e),
 mkState w4
         (trace st ++ extraction_events E zip_path temp_dir
                   ++ opens (list_sort jpg_files)
                   ++ [(encode_call E zip_path first others, None)]
                   ++ closes (first :: others)
                   ++ [(Cleanup temp_dir, Some e)])
         (stdout st)).
Proof.
intros (Hgif & w1 & walked & Hmk & Hex & Hwalk & Hjpg) Hopen Hsave Hclose Hclean.
unfold process_zip_file, process_zip_body, with_TemporaryDirectory,
  try_except, on_exit, bind, read, invoke, query, ret, raise.
rewrite Hgif. simpl. rewrite Hmk. simpl. rewrite Hex. simpl.
rewrite Hwalk. simpl. rewrite <- Hjpg.
destruct jpg_files as [|f0 files]; [discriminate|]. simpl.
rewrite open_images_eq. simpl. simpl in Hopen.
rewrite Hopen. simpl. rewrite Hsave. simpl.
rewrite close_images_eq. simpl. rewrite Hclose. simpl. rewrite Hclean. simpl.
rewrite <- !app_assoc.
rewrite (open_events_opens _ _ _ Hopen), (close_events_closes _ _ Hclose).
reflexivity.
Qed.

(** X6: In every run, whatever fails, at most one encode call is made, and it
  is the call of [process_zip_file] for this archive: it writes to the
  output path of the archive and nowhere else, with [save_all], the
  interval of the base name, loop 0 and disposal 2. *)
Theorem encodes_only_the_output zip_path st :
exists evs,
  trace (snd (process_zip_file E zip_path st)) = (trace st ++ evs)%list /\
  (List.length (filter is_save evs) <= 1)%nat /\
  forall args r, In (ImageSave args, r) evs ->
    sv_fp args = gif_path_of E zip_path /\
    sv_save_all args = true /\
    sv_duration args = find_ms_in_filename (basename E zip_path) /\
    sv_loop args = 0 /\ sv_disposal args = 2.
Proof.
assert (forall w l, filter is_save (open_events E w l) = []) as Hopens.
{ intros w l. pose proof (open_events_no_save E w l) as H.
  induction (open_events E w l) as [|ev t IH]; [reflexivity|].
  simpl in *. apply andb_true_iff in H as [H1 H2].
  destruct (is_save ev); [discriminate|]. auto. }
assert (forall w l, filter is_save (close_events E w l) = []) as Hcloses.
{ intros w l. pose proof (close_events_no_save E w l) as H.
  induction (close_events E w l) as [|ev t IH]; [reflexivity|].
  simpl in *. apply andb_true_iff in H as [H1 H2].
  destruct (is_save ev); [discriminate|]. auto. }
assert (forall l (args : save_args image) r,
          filter is_save l = [] -> ~ In (ImageSave args, r) l) as Hnot.
{ intros l args r Hl Hin.
  assert (In (ImageSave args, r) (filter is_save l)) as H
    by (apply filter_In; auto).
  now rewrite Hl in H. }
run_cases; rewrite <- ?app_assoc; simpl.
{ exists []. rewrite app_nil_r. simpl. repeat split; auto; contradiction. }
all: eexists; (split; [reflexivity|]); simpl;
  rewrite ?filter_app, ?Hopens; simpl; rewrite ?filter_app, ?Hcloses; simpl;
  (split; [lia|]); intros args r Hin;
  repeat (destruct Hin as [Hin|Hin]; [try discriminate Hin|]);
  try contradiction;
  try (apply in_app_iff in Hin as [Hin|Hin];
       [now apply Hnot in Hin|]);
  repeat (destruct Hin as [Hin|Hin]; [try discriminate Hin|]);
  try contradiction;
  try (injection Hin as <- <-; simpl; auto);
  try (apply in_app_iff in Hin as [Hin|Hin];
       [now apply Hnot in Hin|]);
  repeat (destruct Hin as [Hin|Hin]; [try discriminate Hin|]);
  try contradiction.
Qed.

(** X7: Processing an archive again after a success: provided a returning
  encode call leaves a file at the path it wrote to, and the removal of
  this run's scratch directory does not take the output away, the next
  call for the same archive finds the output and returns the skip outcome
  without touching anything. *)
Theorem rerun_after_success_skips zip_path st message st' :
process_zip_file E zip_path st = (inr (zip_path, "success", message), st') ->
(forall args w w',
   image_save E args w = (inr tt, w') ->
   path_exists E (sv_fp args) w' = true) ->
(forall temp_dir w1 w w',
   mkdtemp E "gif_frames_" (dirname E zip_path) (world st) = (inr temp_dir, w1) ->
   cleanup E temp_dir w = (inr tt, w') ->
   path_exists E (gif_path_of E zip_path) w = true ->
   path_exists E (gif_path_of E zip_path) w' = true) ->
process_zip_file E zip_path st' =
(inr (zip_path, "skip", "对应的GIF已存在"), st').
Proof.
intros Hrun Hsave_post Hclean_frame.
assert (exists temp_dir w1 args w2 w3,
          mkdtemp E "gif_frames_" (dirname E zip_path) (world st)
          = (inr temp_dir, w1) /\
          image_save E args w2 = (inr tt, w3) /\
          sv_fp args = gif_path_of E zip_path /\
          cleanup E temp_dir w3 = (inr tt, world st'))
  as (temp_dir & w1 & args & w2 & w3 & Hmk & Hsave & Hfp & Hclean).
{ clear Hsave_post Hclean_frame. revert Hrun.
  run_cases; intros H; try discriminate H.
  injection H as _ <-. cbn [world].
  do 5 eexists. split; [reflexivity|]. split; [exact Hsave|].
  split; [reflexivity|exact Hclean]. }
apply process_zip_file_skip.
eapply Hclean_frame; [exact Hmk|exact Hclean|].
rewrite <- Hfp. exact (Hsave_post _ _ _ Hsave).
Qed.

End ArchiveRuns.

Lemma sim_mem_last p (w : Sim.world) : Sim.mem p (w ++ [p])%list = true.
Proof.
  unfold Sim.mem. rewrite existsb_app. simpl.
  now rewrite String.eqb_refl, orb_true_r.
Qed.

Lemma sim_mem_filter p f w :
  Sim.mem p w = true -> f p = true -> Sim.mem p (filter f w) = true.
Proof.
  unfold Sim.mem. intros Hm Hf. apply existsb_exists in Hm as (x & Hin & Hx).
  apply String.eqb_eq in Hx as <-. apply existsb_exists. exists p.
  split; [now apply filter_In|apply String.eqb_refl].
Qed.

Lemma success_run_witness :
  let E := Sim.clip_env in
  let st := Sim.start [Sim.clip_zip] in
  let st' := snd (process_zip_file E Sim.clip_zip st) in
  exists temp_dir w2 jpg_files first others w3,
    extracted E Sim.clip_zip (world st) temp_dir w2 jpg_files /\
    jpg_files <> [] /\
    opened E w2 (list_sort jpg_files) = inr (first :: others) /\
    image_save E (mkSave first (gif_path_of E Sim.clip_zip) true others
                         (find_ms_in_filename (basename E Sim.clip_zip)) 0 2) w2 =
    (inr tt, w3) /\
    closed E w3 (first :: others) = inr tt /\
    cleanup E temp_dir w3 = (inr tt, world st') /\
    "d/clip@100ms.gif" = gif_path_of E Sim.clip_zip /\
    stdout st' = stdout st /\
    trace st' =
    (trace st ++ extraction_events E Sim.clip_zip temp_dir
              ++ opens (list_sort jpg_files)
              ++ [(encode_call E Sim.clip_zip first others, None)]
              ++ closes (first :: others)
              ++ [(Cleanup temp_dir, None)])%list.
Proof.
  intros E st st'.
  apply (success_run E Sim.clip_zip st "d/clip@100ms.gif" st').
  reflexivity.
Defined.

Lemma extraction_failure_witness :
  let E := Sim.env [] [] None in
  let st := Sim.start [Sim.clip_zip] in
  let e := mkException "BadZipFile" "File is not a zip file" in
  process_zip_file E Sim.clip_zip st =
  (inr (Sim.clip_zip, "error", exc_str e),
   mkState [Sim.clip_zip]
           (trace st ++ [(Mkdtemp "gif_frames_" (dirname E Sim.clip_zip), None);
                         (Extractall Sim.clip_zip Sim.scratch, Some e);
                         (Cleanup Sim.scratch, None)])
           (stdout st)).
Proof.
  intros E st e.
  apply (extraction_failure E Sim.clip_zip st Sim.scratch
           [Sim.clip_zip] [Sim.clip_zip] [Sim.clip_zip] e); reflexivity.
Defined.

Lemma sim_rejecting_extracted :
  extracted sim_rejecting_env Sim.clip_zip [Sim.clip_zip] Sim.scratch
            Sim.clip_extracted Sim.clip_jpg_files.
Proof.
  split; [reflexivity|].
  exists [Sim.clip_zip], [(Sim.scratch, Sim.clip_members)].
  repeat split; reflexivity.
Qed.

Lemma encode_failure_witness :
  let E := sim_rejecting_env in
  let st := Sim.start [Sim.clip_zip] in
  let e := mkException "ValueError" "images do not match" in
  process_zip_file E Sim.clip_zip st =
  (inr (Sim.clip_zip, "error", exc_str e),
   mkState [Sim.clip_zip]
           (trace st ++ extraction_events E Sim.clip_zip Sim.scratch
                     ++ opens (list_sort Sim.clip_jpg_files)
                     ++ [(encode_call E Sim.clip_zip "d/gif_frames_0/a.jpg"
                                      ["d/gif_frames_0/b.jpg";
                                       "d/gif_frames_0/c.JPG"], Some e);
                         (Cleanup Sim.scratch, None)])
           (stdout st)).
Proof.
  intros E st e.
  apply (encode_failure E Sim.clip_zip st Sim.scratch Sim.clip_extracted
           Sim.clip_jpg_files "d/gif_frames_0/a.jpg"
           ["d/gif_frames_0/b.jpg"; "d/gif_frames_0/c.JPG"] e
           Sim.clip_extracted [Sim.clip_zip]).
  - exact sim_rejecting_extracted.
  - reflexivity.
  - reflexivity.
  - reflexivity.
Defined.

Lemma sim_sticky_extracted :
  extracted sim_sticky_env Sim.clip_zip [Sim.clip_zip] Sim.scratch
            Sim.clip_extracted Sim.clip_jpg_files.
Proof.
  split; [reflexivity|].
  exists [Sim.clip_zip], [(Sim.scratch, Sim.clip_members)].
  repeat split; reflexivity.
Qed.

Lemma cleanup_failure_after_encode_witness :
  let E := sim_sticky_env in
  let st := Sim.start [Sim.clip_zip] in
  let e := mkException "PermissionError" Sim.scratch in
  let frames := ["d/gif_frames_0/a.jpg"; "d/gif_frames_0/b.jpg";
                 "d/gif_frames_0/c.JPG"] in
  process_zip_file E Sim.clip_zip st =
  (inr (Sim.clip_zip, "error", exc_str e),
   mkState (Sim.clip_extracted ++ ["d/clip@100ms.gif"])%list
           (trace st ++ extraction_events E Sim.clip_zip Sim.scratch
                     ++ opens (list_sort Sim.clip_jpg_files)
                     ++ [(encode_call E Sim.clip_zip "d/gif_frames_0/a.jpg"
                                      ["d/gif_frames_0/b.jpg";
                                       "d/gif_frames_0/c.JPG"], None)]
                     ++ closes frames
                     ++ [(Cleanup Sim.scratch, Some e)])
           (stdout st)).
Proof.
  intros E st e frames.
  apply (cleanup_failure_after_encode E Sim.clip_zip st Sim.scratch
           Sim.clip_extracted Sim.clip_jpg_files "d/gif_frames_0/a.jpg"
           ["d/gif_frames_0/b.jpg"; "d/gif_frames_0/c.JPG"] e
           (Sim.clip_extracted ++ ["d/clip@100ms.gif"])%list
           (Sim.clip_extracted ++ ["d/clip@100ms.gif"])%list).
  - exact sim_sticky_extracted.
  - reflexivity.
  - reflexivity.
  - reflexivity.
  - reflexivity.
Defined.

Lemma rerun_after_success_skips_witness :
  let E := Sim.clip_env in
  let st := Sim.start [Sim.clip_zip] in
  let st' := snd (process_zip_file E Sim.clip_zip st) in
  process_zip_file E Sim.clip_zip st' =
  (inr (Sim.clip_zip, "skip", "对应的GIF已存在"), st').
Proof.
  intros E st st'.
  apply (rerun_after_success_skips E Sim.clip_zip st "d/clip@100ms.gif" st').
  - reflexivity.
  - intros args w w' H. injection H as <-. apply sim_mem_last.
  - intros temp_dir w1 w w' Hmk Hclean Hgif.
    injection Hmk as <- _. injection Hclean as <-.
    now apply sim_mem_filter.
Defined.

(** ** Runs of the batch coordinator *)

Section BatchRuns.
Context {W image : Type} (E : Env W image).

(** The results of the pool. *)
Lemma run_pool_known order st :
exists completed st',
  run_pool E order st = (inr completed, st') /\
  map fst completed = order /\
  Forall known completed /\
  stdout st' = stdout st.
Proof.
revert st. induction order as [|zip_path rest IH]; intros st; simpl.
- exists [], st. repeat split; auto.
- unfold bind, try_except, ret.
  destruct (process_zip_file_shape E zip_path st)
    as (status & message & w' & evs & -> & _ & _ & _ & _ & Hknown).
  destruct (IH (mkState w' (trace st ++ evs) (stdout st)))
    as (completed & st' & -> & Hmap & Hall & Hout).
  exists ((zip_path, inr (zip_path, status, message)) :: completed), st'.
  simpl. repeat split; auto.
  + now rewrite Hmap.
  + constructor; [|exact Hall]. exists status, message. auto.
Qed.


Lemma known_counts completed :
Forall known completed ->
count (has_status "success") completed + count (has_status "skip") completed
+ count (has_status "warning") completed
+ count (has_status "error") completed
= Z.of_nat (List.length completed) /\
count escaped completed = 0 /\
Z.of_nat (List.length (flat_map report completed)) =
Z.of_nat (List.length completed) - count (has_status "skip") completed.
Proof.
induction 1 as [|c rest Hc _ IH]; [now cbv|].
rewrite !(count_cons _ c rest). cbn [flat_map]. rewrite length_app.
cbn [List.length]. destruct IH as (IH1 & IH2 & IH3).
assert (count (has_status "success") [c] + count (has_status "skip") [c]
        + count (has_status "warning") [c] + count (has_status "error") [c]
        = 1 /\
        count escaped [c] = 0 /\
        Z.of_nat (List.length (report c)) = 1 - count (has_status "skip") [c])
  as (H1 & H2 & H3).
{ destruct c as [zip_path r]. destruct Hc as (status & message & Hr & Hin).
  simpl in Hr. subst r. simpl in Hin.
  destruct Hin as [<-|[<-|[<-|[<-|[]]]]]; repeat split; reflexivity. }
rewrite Nat2Z.inj_add, Nat2Z.inj_succ.
lia.
Qed.

(** X8: Isolation: whatever happens to each archive, the pool hands back one
  result per archive, in the order of completion; each is a returned
  tuple that names its own archive and has one of the four known
  statuses, so no future raises and the four kinds of outcome add up to
  the number of archives; and the workers print nothing. *)
Theorem run_pool_isolates order st :
exists completed st',
  run_pool E order st = (inr completed, st') /\
  map fst completed = order /\
  Forall known completed /\
  count escaped completed = 0 /\
  count (has_status "success") completed
  + count (has_status "skip") completed
  + count (has_status "warning") completed
  + count (has_status "error") completed = Z.of_nat (List.length order) /\
  stdout st' = stdout st.
Proof.
destruct (run_pool_known order st)
  as (completed & st' & Hrun & Hmap & Hknown & Hout).
destruct (known_counts completed Hknown) as (Hsum & Hesc & _).
exists completed, st'. repeat split; auto.
rewrite Hsum, <- Hmap. now rewrite length_map.
Qed.




End BatchRuns.



Example main_missing_folder :
  main Sim.clip_env sim_isdir (fun l => l) "nowhere" None
       (Sim.start [Sim.clip_zip]) =
  (inr tt, mkState [Sim.clip_zip] [] ["错误: 文件夹 nowhere 不存在"]).
Proof. reflexivity. Qed.

Example main_clip_folder :
  stdout (snd (main Sim.clip_env sim_isdir (fun l => l) "d" None
                    (Sim.start [Sim.clip_zip]))) =
  ["✓ 已生成: d/clip@100ms.gif";
   String "010" "处理完成: 共处理 1 个文件";
   "✓ 成功: 1"; "↺ 跳过: 0"; "✗ 失败: 0"].
Proof. reflexivity. Qed.

(** ** The order of the frames *)

Lemma sorted_permutation_unique l : forall l',
  StronglySorted str_le l -> StronglySorted str_le l' ->
  Permutation l l' -> l = l'.
Proof.
  induction l as [|x t IH]; intros l' Hs Hs' Hp.
  - apply Permutation_nil in Hp. now subst.
  - destruct l' as [|y t'];
      [apply Permutation_sym, Permutation_nil in Hp; discriminate|].
    apply StronglySorted_inv in Hs as [Hst Hx].
    apply StronglySorted_inv in Hs' as [Hst' Hy].
    rewrite Forall_forall in Hx, Hy.
    assert (x = y) as <-.
    { assert (In x (y :: t')) as [->|Hin]
        by (eapply Permutation_in; [exact Hp|now left]); [reflexivity|].
      assert (In y (x :: t)) as [->|Hin']
        by (eapply Permutation_in; [symmetry; exact Hp|now left]);
        [reflexivity|].
      apply String.leb_antisym; [apply Hx, Hin'|apply Hy, Hin]. }
    f_equal. apply IH; auto. now apply Permutation_cons_inv in Hp.
Qed.

(** X12: The order of the frames does not depend on the order in which the walk
    yields the files: two lists with the same paths sort to the same list.
    In particular sorting a sorted list changes nothing. *)
Theorem list_sort_order_independent (l l' : list string) :
  Permutation l l' ->
  list_sort l = list_sort l' /\ list_sort (list_sort l) = list_sort l.
Proof.
  intros Hp. split.
  - apply sorted_permutation_unique; auto using list_sort_strongly.
    rewrite !list_sort_perm. exact Hp.
  - apply sorted_permutation_unique; auto using list_sort_strongly.
    apply list_sort_perm.
Qed.

Lemma list_sort_order_independent_witness :
  list_sort ["f/b.jpg"; "f/a.jpg"; "f/c.jpg"] =
  list_sort ["f/c.jpg"; "f/b.jpg"; "f/a.jpg"] /\
  list_sort (list_sort ["f/b.jpg"; "f/a.jpg"; "f/c.jpg"]) =
  list_sort ["f/b.jpg"; "f/a.jpg"; "f/c.jpg"].
Proof.
  apply (list_sort_order_independent ["f/b.jpg"; "f/a.jpg"; "f/c.jpg"]
                                     ["f/c.jpg"; "f/b.jpg"; "f/a.jpg"]).
  apply perm_trans with ["f/b.jpg"; "f/c.jpg"; "f/a.jpg"].
  - apply perm_skip, perm_swap.
  - apply perm_trans with ["f/c.jpg"; "f/b.jpg"; "f/a.jpg"];
      [apply perm_swap|apply Permutation_refl].
Defined.

(** ** The selection of the files *)

Section Selection.

Lemma substring_all s : substring 0 (String.length s) s = s.
Proof. induction s as [|c s IH]; simpl; [reflexivity|now rewrite IH]. Qed.

Lemma substring_suffix pre suf :
substring (String.length pre) (String.length suf) (pre ++ suf) = suf.
Proof. induction pre as [|c pre IH]; simpl; [apply substring_all|exact IH]. Qed.

Lemma substring_split s : forall m,
(m <= String.length s)%nat ->
s = substring 0 m s ++ substring m (String.length s - m) s.
Proof.
induction s as [|c s IH]; intros [|m] Hm.
- reflexivity.
- simpl in Hm. lia.
- simpl. now rewrite substring_all.
- simpl. f_equal. apply IH. simpl in Hm. lia.
Qed.

Lemma length_append a b :
String.length (a ++ b) = (String.length a + String.length b)%nat.
Proof. induction a as [|c a IH]; simpl; [reflexivity|now rewrite IH]. Qed.

Lemma endswith_iff s suffix :
Py.endswith s suffix = true <-> exists pre, s = pre ++ suffix.
Proof.
unfold Py.endswith. cbv zeta. rewrite andb_true_iff, Nat.leb_le, String.eqb_eq.
split.
- intros [Hle Hsub].
  exists (substring 0 (String.length s - String.length suffix) s).
  assert (String.length s - String.length suffix <= String.length s)%nat
    as Hm by lia.
  pose proof (substring_split s _ Hm) as Hs.
  replace (String.length s - (String.length s - String.length suffix))%nat
    with (String.length suffix) in Hs by lia.
  now rewrite Hsub in Hs.
- intros [pre ->]. rewrite length_append. split; [lia|].
  replace (String.length pre + String.length suffix - String.length suffix)%nat
    with (String.length pre) by lia.
  apply substring_suffix.
Qed.

Lemma lower_append a b : Py.lower (a ++ b) = Py.lower a ++ Py.lower b.
Proof. induction a as [|c a IH]; simpl; [reflexivity|now rewrite IH]. Qed.

Lemma lower_split a : forall file b,
Py.lower file = a ++ b ->
exists x y, file = x ++ y /\ Py.lower x = a /\ Py.lower y = b.
Proof.
induction a as [|c a IH]; intros file b H.
- exists "", file. auto.
- destruct file as [|d file]; [discriminate|]. simpl in H.
  injection H as Hc H. destruct (IH _ _ H) as (x & y & -> & Hx & Hy).
  exists (String d x), y. simpl. now rewrite Hc, Hx.
Qed.

Lemma has_suffix_iff suffixes file :
has_suffix suffixes file = true <->
exists stem ext, file = stem ++ ext /\ In (Py.lower ext) suffixes.
Proof.
unfold has_suffix. rewrite existsb_exists. split.
- intros (s & Hin & Hend). apply endswith_iff in Hend as [pre Hpre].
  destruct (lower_split _ _ _ Hpre) as (x & y & -> & _ & Hy).
  exists x, y. now rewrite Hy.
- intros (stem & ext & -> & Hin). exists (Py.lower ext). split; [exact Hin|].
  apply endswith_iff. exists (Py.lower stem). apply lower_append.
Qed.

End Selection.

(** X13: The files selected from a walk, for the archives (suffix [.zip]) as for
    the frames (suffixes [.jpg] and [.jpeg]): a path is collected exactly
    when it is the join of a walked directory with one of its files whose
    name ends, whatever the case of its letters, with one of the suffixes. *)
Theorem collect_selects {W image : Type} (E : Env W image)
    (suffixes : list string) (walked : list (string * list string))
    (path : string) :
  In path (collect E suffixes walked) <->
  exists root files stem ext,
    In (root, files) walked /\ In (stem ++ ext) files /\
    In (Py.lower ext) suffixes /\ path = join E root (stem ++ ext).
Proof.
  unfold collect. rewrite in_flat_map. split.
  - intros ([root files] & Hw & Hin). simpl in Hin.
    apply in_map_iff in Hin as (file & <- & Hfile).
    apply filter_In in Hfile as [Hfile Hsuf].
    apply has_suffix_iff in Hsuf as (stem & ext & -> & Hext).
    exists root, files, stem, ext. auto.
  - intros (root & files & stem & ext & Hw & Hfile & Hext & ->).
    exists (root, files). split; [exact Hw|]. simpl.
    apply in_map, filter_In. split; [exact Hfile|].
    apply has_suffix_iff. eauto.
Qed.

Example collect_mixed_case :
  collect Sim.clip_env [".jpg"; ".jpeg"]
          [("t", ["b.JPG"; "notes.txt"; "jpg"]); ("t/sub", ["a.Jpeg"; "c.jpg.bak"])] =
  ["t/b.JPG"; "t/sub/a.Jpeg"].
Proof. reflexivity. Qed.

(** ** Writing and reading back an interval *)

Section Decoding.

Lemma code_points_unfold a t :
Py.code_points (String a t) =
fst (Py.head_char (N_of_ascii a) (Py.byte_at t 0) (Py.byte_at t 1)
                  (Py.byte_at t 2))
:: match Py.skip (snd (Py.head_char (N_of_ascii a) (Py.byte_at t 0)
                                    (Py.byte_at t 1) (Py.byte_at t 2))) t with
   | Some r => Py.code_points r
   | None => []
   end.
Proof.
cbn [Py.code_points].
destruct (Py.head_char (N_of_ascii a) (Py.byte_at t 0) (Py.byte_at t 1)
                       (Py.byte_at t 2)) as [cp w].
cbn [fst snd]. destruct w; destruct t as [|a1 [|a2 [|a3 t']]]; reflexivity.
Qed.

Lemma code_points_ascii a t :
(N_of_ascii a < 128)%N ->
Py.code_points (String a t) = N_of_ascii a :: Py.code_points t.
Proof.
intros Ha. rewrite code_points_unfold. unfold Py.head_char.
apply N.ltb_lt in Ha. rewrite Ha. reflexivity.
Qed.

Ltac split_ifs :=
repeat match goal with
       | |- context [if ?b then _ else _] => destruct b eqn:?
       | |- context [match ?x with Some _ => _ | None => _ end] =>
           destruct x eqn:?
       end.

Lemma head_char_skip b0 t :
exists r,
  Py.skip (snd (Py.head_char b0 (Py.byte_at t 0) (Py.byte_at t 1)
                             (Py.byte_at t 2))) t = Some r /\
  (String.length r <= String.length t)%nat /\
  forall x, Py.skip (snd (Py.head_char b0 (Py.byte_at t 0) (Py.byte_at t 1)
                                       (Py.byte_at t 2))) (t ++ x)
            = Some (r ++ x) /\
  forall c, has_char c r = true -> has_char c t = true.
Proof.
unfold Py.head_char, Py.byte_at.
destruct t as [|a1 [|a2 [|a3 t']]]; cbn [String.get];
  split_ifs; cbn [snd Py.skip];
  eexists; (split; [reflexivity|]); (split; [simpl; lia|]);
  intros x; (split; [reflexivity|]); intros c H;
  first [ exact H
        | simpl in H |- *; first [discriminate H
                                 | rewrite H, ?orb_true_r; reflexivity] ].
Qed.

Lemma head_char_app b0 p a t :
(N_of_ascii a < 128)%N ->
Py.head_char b0 (Py.byte_at (p ++ String a t) 0)
             (Py.byte_at (p ++ String a t) 1)
             (Py.byte_at (p ++ String a t) 2) =
Py.head_char b0 (Py.byte_at p 0) (Py.byte_at p 1) (Py.byte_at p 2).
Proof.
intros Ha.
assert (Py.is_cont (N_of_ascii a) = false) as Hc.
{ unfold Py.is_cont. apply andb_false_iff. left. apply N.leb_gt. exact Ha. }
unfold Py.head_char, Py.byte_at.
destruct p as [|a1 [|a2 [|a3 p']]]; cbn [append String.get]; rewrite ?Hc;
  cbn [andb]; split_ifs; reflexivity.
Qed.

Lemma code_points_app_ascii n : forall p a t,
(String.length p <= n)%nat -> (N_of_ascii a < 128)%N ->
Py.code_points (p ++ String a t) =
(Py.code_points p ++ Py.code_points (String a t))%list.
Proof.
induction n as [|n IH]; intros p a t Hn Ha.
- destruct p; [reflexivity|simpl in Hn; lia].
- destruct p as [|a0 p]; [reflexivity|].
  change (String a0 p ++ String a t) with (String a0 (p ++ String a t)).
  rewrite (code_points_unfold a0 (p ++ String a t)),
    (code_points_unfold a0 p), (head_char_app _ _ _ _ Ha).
  destruct (head_char_skip (N_of_ascii a0) p) as (r & Hr & Hlen & Happ).
  destruct (Happ (String a t)) as [Hra _]. rewrite Hr, Hra.
  cbn [app]. f_equal. apply IH; [simpl in Hn; lia|exact Ha].
Qed.

Lemma head_char_at b0 b1 b2 b3 :
fst (Py.head_char b0 b1 b2 b3) = 64%N -> b0 = 64%N.
Proof.
unfold Py.head_char, Py.three_ok, Py.four_ok, Py.is_cont, Py.escaped_byte.
split_ifs; cbn [fst]; intros H;
  repeat match goal with
         | H : (_ && _) = true |- _ => apply andb_true_iff in H as [? ?]
         | H : (_ <=? _)%N = true |- _ => apply N.leb_le in H
         | H : (_ <? _)%N = true |- _ => apply N.ltb_lt in H
         | H : (_ <? _)%N = false |- _ => apply N.ltb_ge in H
         | H : (_ =? _)%N = true |- _ => apply N.eqb_eq in H
         | H : (_ =? _)%N = false |- _ => apply N.eqb_neq in H
         end; lia.
Qed.

Lemma no_at_code_points n : forall p,
(String.length p <= n)%nat ->
In 64%N (Py.code_points p) -> has_char "@" p = true.
Proof.
induction n as [|n IH]; intros p Hn Hin.
- destruct p; [contradiction|simpl in Hn; lia].
- destruct p as [|a0 p]; [contradiction|].
  rewrite code_points_unfold in Hin.
  destruct (head_char_skip (N_of_ascii a0) p) as (r & Hr & Hlen & Happ).
  rewrite Hr in Hin. cbn [has_char]. destruct Hin as [Hin|Hin].
  + apply head_char_at in Hin.
    assert (a0 = "@"%char) as ->
      by (rewrite <- (ascii_N_embedding a0), Hin; reflexivity).
    reflexivity.
  + apply orb_true_iff. right. destruct (Happ "") as [_ Hc]. apply Hc.
    apply IH; [simpl in Hn; lia|exact Hin].
Qed.

End Decoding.

Section RoundTrip.

Lemma code_points_uint d t :
Py.code_points (NilEmpty.string_of_uint d ++ t) =
(Py.code_points (NilEmpty.string_of_uint d) ++ Py.code_points t)%list.
Proof.
induction d; cbn [NilEmpty.string_of_uint append]; [reflexivity| ..];
  rewrite !code_points_ascii by (vm_compute; reflexivity);
  rewrite IHd; reflexivity.
Qed.

Lemma int_from_uint d : forall acc,
Py.int_from acc (Py.code_points (NilEmpty.string_of_uint d)) = uint_value acc d.
Proof.
induction d; intros acc; cbn [NilEmpty.string_of_uint]; [reflexivity| ..];
  rewrite code_points_ascii by (vm_compute; reflexivity);
  cbn [Py.int_from uint_value]; rewrite IHd; reflexivity.
Qed.

Lemma all_digits_uint d :
Py.all_digits (Py.code_points (NilEmpty.string_of_uint d)) = true.
Proof.
induction d; cbn [NilEmpty.string_of_uint]; [reflexivity| ..];
  rewrite code_points_ascii by (vm_compute; reflexivity);
  cbn [Py.all_digits forallb]; fold Py.all_digits;
  unfold Py.all_digits in IHd; rewrite IHd; reflexivity.
Qed.

Lemma of_uint_acc_value d : forall p,
Z.pos (Pos.of_uint_acc d p) = uint_value (Z.pos p) d.
Proof.
induction d; intros p; cbn [Pos.of_uint_acc uint_value];
  rewrite ?IHd; try reflexivity; f_equal; lia.
Qed.

Lemma of_uint_value d : Z.of_N (Pos.of_uint d) = uint_value 0 d.
Proof.
induction d; cbn [Pos.of_uint uint_value]; try reflexivity;
  try exact IHd; cbn [Z.of_N]; now rewrite of_uint_acc_value.
Qed.

(** The decimal writing of a non-negative integer: ASCII digits, at least
  one, that [int] reads back. *)
Lemma str_of_int_digits n :
0 <= n ->
exists d,
  Py.str_of_int n = NilEmpty.string_of_uint d /\ d <> Decimal.Nil /\
  uint_value 0 d = n.
Proof.
intros Hn. unfold Py.str_of_int. destruct n as [|p|p]; [|clear Hn|lia].
- exists (Decimal.D0 Decimal.Nil). repeat split. discriminate.
- cbn [Z.to_int NilZero.string_of_int]. unfold NilZero.string_of_uint.
  pose proof (DecimalPos.Unsigned.to_uint_nonnil p) as Hnil.
  pose proof (DecimalPos.Unsigned.of_to p) as Hof.
  exists (Pos.to_uint p). rewrite <- of_uint_value, Hof.
  destruct (Pos.to_uint p); [congruence| ..]; repeat split; assumption.
Qed.

Lemma no_at_before (pre : list N) : forall rest q ds,
~ In 64%N pre ->
occurs_at (pre ++ rest) q ds -> (List.length pre <= q)%nat.
Proof.
induction pre as [|c pre IH]; intros rest q ds Hno Ho; simpl in *; [lia|].
destruct q as [|q].
- apply occurs_at_0 in Ho. cbn [Re.match_here] in Ho.
  destruct (N.eqb_spec c 64) as [->|]; [|discriminate].
  exfalso. apply Hno. now left.
- apply occurs_at_S in Ho. apply IH in Ho; [lia|]. intros H. apply Hno. now right.
Qed.

End RoundTrip.

(** X14: Round trip: a file name that carries [@<n>ms], with [n] a non-negative
    integer written in decimal and no [@] before it, gives back [n],
    whatever precedes and follows. *)
Theorem find_ms_reads_back (n : Z) (pre post : string) :
  0 <= n -> has_char "@" pre = false ->
  find_ms_in_filename (pre ++ "@" ++ Py.str_of_int n ++ "ms" ++ post) = n.
Proof.
  intros Hn Hpre. destruct (str_of_int_digits n Hn) as (d & -> & Hnil & Hval).
  assert (Py.code_points (pre ++ "@" ++ NilEmpty.string_of_uint d ++ "ms" ++ post)
          = (Py.code_points pre ++ Py.code_points "@"
               ++ Py.code_points (NilEmpty.string_of_uint d)
               ++ Py.code_points "ms" ++ Py.code_points post)%list) as Hcp.
  { change (pre ++ "@" ++ NilEmpty.string_of_uint d ++ "ms" ++ post)
      with (pre ++ String "@" (NilEmpty.string_of_uint d ++ "ms" ++ post)).
    rewrite (code_points_app_ascii (String.length pre))
      by (auto; vm_compute; reflexivity).
    rewrite code_points_ascii by (vm_compute; reflexivity).
    rewrite code_points_uint.
    change ("ms" ++ post) with (String "m" (String "s" post)).
    rewrite !code_points_ascii by (vm_compute; reflexivity). reflexivity. }
  unfold find_ms_in_filename. rewrite Hcp.
  rewrite (search_leftmost _ (List.length (Py.code_points pre))
             (Py.code_points (NilEmpty.string_of_uint d))).
  - unfold Py.int. now rewrite int_from_uint.
  - exists (Py.code_points pre), (Py.code_points post).
    repeat split; [|apply all_digits_uint].
    destruct d; [congruence| ..]; cbn [NilEmpty.string_of_uint];
      rewrite code_points_ascii by (vm_compute; reflexivity); discriminate.
  - intros q ds' Ho. eapply no_at_before; [|exact Ho].
    intros Hin. apply (no_at_code_points (String.length pre)) in Hin; [|auto].
    congruence.
Qed.

Lemma find_ms_reads_back_witness :
  find_ms_in_filename ("clip" ++ "@" ++ Py.str_of_int 250 ++ "ms" ++ ".zip") = 250.
Proof.
  apply (find_ms_reads_back 250 "clip" ".zip"); [lia|reflexivity].
Defined.
